(** * lcapy.fourier: symbolic bilateral Fourier transforms

    A shallow embedding of [lcapy/fourier.py] together with the fragment of
    the SymPy expression algebra that the module computes with.

    The file has three layers.

    - [Sympy]: expressions as SymPy builds them (numbers, symbols, [Add],
      [Mul], [Pow], applied functions), with the automatic evaluation that
      SymPy's constructors perform, and the queries the module calls
      ([has], [subs], [expand], [rewrite], [as_ordered_terms], ...).
    - [Fourier]: the functions of [fourier.py], one definition per Python
      function, in an exception monad; the module-level dictionary
      [fourier_cache] is threaded as explicit state.
    - the properties of the transform engine. *)

From Stdlib Require Import ZArith PArith List String Ascii Bool Lia DecimalString.
Import ListNotations.

Local Open Scope string_scope.
Local Open Scope Z_scope.

#[local] Set Warnings "-register-all".

(** ** Numbers *)

(** SymPy's [Integer], [Rational] and [Float].  A [Rational] is kept in
    lowest terms with a denominator above one.  A [Float] is kept as the
    exact quotient it denotes: binary rounding is not represented, so the
    model is exact on the dyadic values the module itself introduces (the
    [2.0] of the literal [2j]). *)
Inductive number : Type :=
| Integer (z : Z)
| Rational (p : Z) (q : positive)
| Float (p : Z) (q : positive).

Definition num_pq (n : number) : Z * positive :=
  match n with
  | Integer z => (z, 1%positive)
  | Rational p q => (p, q)
  | Float p q => (p, q)
  end.

Definition is_Float (n : number) : bool :=
  match n with Float _ _ => true | _ => false end.

Definition lowest_terms (p : Z) (q : positive) : Z * positive :=
  let g := Z.gcd p (Zpos q) in (p / g, Z.to_pos (Zpos q / g)).

Definition mk_Rational (p : Z) (q : positive) : number :=
  let '(p', q') := lowest_terms p q in
  if (q' =? 1)%positive then Integer p' else Rational p' q'.

(** [Float._new] returns [S.Zero] for a zero result. *)
Definition mk_Float (p : Z) (q : positive) : number :=
  if p =? 0 then Integer 0
  else let '(p', q') := lowest_terms p q in Float p' q'.

Definition mk_number (float : bool) (p : Z) (q : positive) : number :=
  if float then mk_Float p q else mk_Rational p q.

Definition num_mul (a b : number) : number :=
  match a, b with
  | Integer x, Integer y => Integer (x * y)
  | _, _ =>
      let '(p1, q1) := num_pq a in
      let '(p2, q2) := num_pq b in
      mk_number (is_Float a || is_Float b) (p1 * p2) (q1 * q2)
  end.

Definition num_add (a b : number) : number :=
  match a, b with
  | Integer x, Integer y => Integer (x + y)
  | _, _ =>
      let '(p1, q1) := num_pq a in
      let '(p2, q2) := num_pq b in
      mk_number (is_Float a || is_Float b)
                (p1 * Zpos q2 + p2 * Zpos q1) (q1 * q2)
  end.

Definition num_neg (a : number) : number := num_mul (Integer (-1)) a.

Definition num_is_zero (a : number) : bool :=
  let '(p, _) := num_pq a in p =? 0.

Definition num_is_one (a : number) : bool :=
  match a with Integer 1 => true | _ => false end.

Definition num_sgn (a : number) : Z := Z.sgn (fst (num_pq a)).

Definition num_abs (a : number) : number :=
  match a with
  | Integer z => Integer (Z.abs z)
  | Rational p q => Rational (Z.abs p) q
  | Float p q => Float (Z.abs p) q
  end.

(** [a ** n] for an integer [n]; [None] stands for a zero base under a
    negative exponent (SymPy answers [zoo]). *)
Definition num_pow (a : number) (n : Z) : option number :=
  let '(p, q) := num_pq a in
  if 0 <=? n then
    match a with
    | Integer z => Some (Integer (z ^ n))
    | _ => Some (mk_number (is_Float a) (p ^ n) (Z.to_pos (Zpos q ^ n)))
    end
  else if p =? 0 then None
  else
    let m := - n in
    Some (mk_number (is_Float a)
                    (Z.sgn p ^ m * Zpos q ^ m) (Z.to_pos (Z.abs p ^ m))).

Definition num_eqb (a b : number) : bool :=
  match a, b with
  | Integer x, Integer y => x =? y
  | Rational p q, Rational p' q' => (p =? p') && (q =? q')%positive
  | Float p q, Float p' q' => (p =? p') && (q =? q')%positive
  | _, _ => false
  end.

(** Order of two numbers by value (cross-multiplication). *)
Definition num_compare (a b : number) : comparison :=
  let '(p1, q1) := num_pq a in
  let '(p2, q2) := num_pq b in
  match (p1 * Zpos q2 ?= p2 * Zpos q1) with
  | Eq => Bool.compare (is_Float a) (is_Float b)
  | c => c
  end.

(** ** Expressions *)

(** The assumptions a [Symbol] is created with: none ([Symbol('x')], a
    complex symbol), [real=True] or [positive=True]. *)
Inductive assumption : Type := Complex | Real | Positive.

(** The SymPy functions that occur in the module and in its inputs. *)
Inductive fname : Type :=
| Exp | Cos | Sin | Abs | Sign | DiracDelta | Heaviside.

(** An immutable expression tree.  [Func DiracDelta [x; n]] is the [n]-th
    derivative of the impulse; [AppliedUndef] is an application of an
    undefined function such as [v(t)]; [Integral f x lo hi] is the
    unevaluated [Integral(f, (x, lo, hi))]; [FourierTransform] is the
    unevaluated object SymPy returns when it finds no closed form. *)
Inductive Expr : Type :=
| Number (n : number)
| Exp1
| Pi
| ImaginaryUnit
| Infinity
| NegativeInfinity
| ComplexInfinity
| Symbol (name : string) (a : assumption)
| Pow (b e : Expr)
| Mul (args : list Expr)
| Add (args : list Expr)
| Func (h : fname) (args : list Expr)
| AppliedUndef (name : string) (args : list Expr)
| Integral (function x lo hi : Expr)
| FourierTransform (function t f : Expr).

Definition Zero : Expr := Number (Integer 0).
Definition One : Expr := Number (Integer 1).
Definition NegativeOne : Expr := Number (Integer (-1)).
Definition Half : Expr := Number (Rational 1 2).

Definition assumption_eqb (a b : assumption) : bool :=
  match a, b with
  | Complex, Complex | Real, Real | Positive, Positive => true
  | _, _ => false
  end.

Definition fname_rank (h : fname) : Z :=
  match h with
  | Abs => 0 | Sign => 1 | Exp => 2 | Sin => 3 | Cos => 4
  | DiracDelta => 5 | Heaviside => 6
  end.

Definition fname_eqb (g h : fname) : bool := fname_rank g =? fname_rank h.

Definition assumption_rank (a : assumption) : Z :=
  match a with Complex => 0 | Real => 1 | Positive => 2 end.

(** Structural equality, SymPy's [==]. *)
Fixpoint expr_eqb (x y : Expr) {struct x} : bool :=
  let fix list_eqb (xs ys : list Expr) {struct xs} : bool :=
    match xs, ys with
    | [], [] => true
    | x' :: xs', y' :: ys' => expr_eqb x' y' && list_eqb xs' ys'
    | _, _ => false
    end in
  match x, y with
  | Number m, Number n => num_eqb m n
  | Exp1, Exp1 | Pi, Pi | ImaginaryUnit, ImaginaryUnit => true
  | Infinity, Infinity | NegativeInfinity, NegativeInfinity => true
  | ComplexInfinity, ComplexInfinity => true
  | Symbol m a, Symbol n b => assumption_eqb a b && String.eqb m n
  | Pow b e, Pow b' e' => expr_eqb b b' && expr_eqb e e'
  | Mul xs, Mul ys => list_eqb xs ys
  | Add xs, Add ys => list_eqb xs ys
  | Func g xs, Func h ys => fname_eqb g h && list_eqb xs ys
  | AppliedUndef m xs, AppliedUndef n ys => String.eqb m n && list_eqb xs ys
  | Integral a b c d, Integral a' b' c' d' =>
      expr_eqb a a' && expr_eqb b b' && expr_eqb c c' && expr_eqb d d'
  | FourierTransform a b c, FourierTransform a' b' c' =>
      expr_eqb a a' && expr_eqb b b' && expr_eqb c c'
  | _, _ => false
  end.

Fixpoint list_eqb (xs ys : list Expr) {struct xs} : bool :=
  match xs, ys with
  | [], [] => true
  | x :: xs', y :: ys' => expr_eqb x y && list_eqb xs' ys'
  | _, _ => false
  end.

(** *** The canonical order of arguments

    SymPy keeps the arguments of [Add] and [Mul] sorted by [Basic.compare]:
    first by class, in the order of [ordering_of_classes] (numbers, [E],
    [pi], [I], symbols, [Pow], [Mul], [Add], then the rest), then by content. *)
Definition class_rank (x : Expr) : Z :=
  match x with
  | Number _ => 0
  | Infinity => 1
  | NegativeInfinity => 2
  | ComplexInfinity => 3
  | Exp1 => 4
  | Pi => 5
  | ImaginaryUnit => 6
  | Symbol _ _ => 7
  | Pow _ _ => 8
  | Mul _ => 9
  | Add _ => 10
  | Integral _ _ _ _ => 11
  | Func h _ => 12 + fname_rank h
  | AppliedUndef _ _ => 20
  | FourierTransform _ _ _ => 21
  end.

Definition lex (c : comparison) (d : comparison) : comparison :=
  match c with Eq => d | _ => c end.

Fixpoint compare (x y : Expr) {struct x} : comparison :=
  let fix list_compare (xs ys : list Expr) {struct xs} : comparison :=
    match xs, ys with
    | [], [] => Eq
    | [], _ :: _ => Lt
    | _ :: _, [] => Gt
    | x' :: xs', y' :: ys' => lex (compare x' y') (list_compare xs' ys')
    end in
  let args_compare (xs ys : list Expr) : comparison :=
    lex (Nat.compare (List.length xs) (List.length ys)) (list_compare xs ys) in
  match x, y with
  | Number m, Number n => num_compare m n
  | Symbol m a, Symbol n b =>
      lex (String.compare m n) (assumption_rank a ?= assumption_rank b)
  | Pow b e, Pow b' e' => lex (compare b b') (compare e e')
  | Mul xs, Mul ys => args_compare xs ys
  | Add xs, Add ys => args_compare xs ys
  | Func g xs, Func h ys =>
      lex (fname_rank g ?= fname_rank h) (args_compare xs ys)
  | AppliedUndef m xs, AppliedUndef n ys =>
      lex (String.compare m n) (args_compare xs ys)
  | Integral a b c d, Integral a' b' c' d' =>
      lex (compare a a') (lex (compare b b') (lex (compare c c') (compare d d')))
  | FourierTransform a b c, FourierTransform a' b' c' =>
      lex (compare a a') (lex (compare b b') (compare c c'))
  | _, _ => class_rank x ?= class_rank y
  end.

Definition ltb (x y : Expr) : bool :=
  match compare x y with Lt => true | _ => false end.

(** Insertion into a list kept sorted by [compare]; equal keys keep their
    order of arrival. *)
Fixpoint insert_sorted (x : Expr) (l : list Expr) : list Expr :=
  match l with
  | [] => [x]
  | y :: l' => if ltb x y then x :: l else y :: insert_sorted x l'
  end.

Definition sort_args (l : list Expr) : list Expr :=
  fold_left (fun acc x => insert_sorted x acc) l [].

(** ** Automatic evaluation: [Add], [Mul], [Pow]

    SymPy's constructors evaluate: [Add] and [Mul] drop their identity,
    flatten nested sums and products, combine numbers, collect like terms
    and like powers, and sort what remains.  The definitions below follow
    [AssocOp.__new__], [Add.flatten], [Mul.flatten] and [Pow.__new__] on
    finite, commutative expressions: numbers, [I], [pi], symbols, applied
    functions, their powers, products and sums.  Arithmetic with the
    infinities and evaluation of [exp] at numeric multiples of [I*pi] are not
    represented. *)

Definition make_mul (args : list Expr) : Expr :=
  match args with
  | [] => One
  | [x] => x
  | _ => Mul args
  end.

(** [Expr.as_coeff_Mul]: the leading number of a product, and the rest. *)
Definition as_coeff_Mul (x : Expr) : number * Expr :=
  match x with
  | Number n => (n, One)
  | Mul (Number n :: rest) => (n, make_mul rest)
  | _ => (Integer 1, x)
  end.

(** A number times a term that is not a sum. *)
Definition mul_coeff_term (c : number) (x : Expr) : Expr :=
  if num_is_zero c then Zero
  else
    match x with
    | Number n => Number (num_mul c n)
    | Mul (Number n :: rest) =>
        let c' := num_mul c n in
        if num_is_one c' then make_mul rest else Mul (Number c' :: rest)
    | Mul rest => if num_is_one c then x else Mul (Number c :: rest)
    | _ => if num_is_one c then x else Mul [Number c; x]
    end.

Definition is_Zero (x : Expr) : bool :=
  match x with Number (Integer 0) => true | _ => false end.

Definition is_One (x : Expr) : bool :=
  match x with Number (Integer 1) => true | _ => false end.

Definition Add_args (x : Expr) : list Expr :=
  match x with Add args => args | _ => [x] end.

Definition Mul_args (x : Expr) : list Expr :=
  match x with Mul args => args | _ => [x] end.

(** Like terms: [collect s c l] adds [c] to the coefficient of [s]. *)
Fixpoint collect (s : Expr) (c : number) (l : list (Expr * number))
  : list (Expr * number) :=
  match l with
  | [] => [(s, c)]
  | (s', c') :: l' =>
      if expr_eqb s s' then (s', num_add c' c) :: l'
      else (s', c') :: collect s c l'
  end.

Fixpoint add_gather (seq : list Expr) (coeff : number)
         (terms : list (Expr * number)) : number * list (Expr * number) :=
  match seq with
  | [] => (coeff, terms)
  | Number n :: seq' => add_gather seq' (num_add coeff n) terms
  | o :: seq' =>
      let '(c, s) := as_coeff_Mul o in
      add_gather seq' coeff (collect s c terms)
  end.

Definition add_flatten (seq : list Expr) : Expr :=
  let '(coeff, terms) := add_gather (flat_map Add_args seq) (Integer 0) [] in
  let newseq :=
    sort_args
      (map (fun '(s, c) => mul_coeff_term c s)
           (filter (fun '(_, c) => negb (num_is_zero c)) terms)) in
  let newseq :=
    if num_is_zero coeff then newseq else Number coeff :: newseq in
  match newseq with
  | [] => Zero
  | [x] => x
  | _ => Add newseq
  end.

(** [Add] applied to arguments: the identity is filtered out before anything else, and a
    single remaining argument is returned as it is. *)
Definition Add_ (args : list Expr) : Expr :=
  match filter (fun a => negb (is_Zero a)) args with
  | [] => Zero
  | [x] => x
  | args' => add_flatten args'
  end.

(** The product form [Mul.flatten] works on: a numeric coefficient
    ([None] once a zero was raised to a negative power), the power of
    [I], and the remaining powers as [(base, kernel, c)] for
    [base ** (c * kernel)]. *)
Definition power : Type := Expr * Expr * number.

Record product : Type := mkProduct {
  coeff : option number;
  ipow : Z;
  powers : list power
}.

Fixpoint gather (b k : Expr) (c : number) (l : list power) : list power :=
  match l with
  | [] => [(b, k, c)]
  | (b', k', c') :: l' =>
      if expr_eqb b b' && expr_eqb k k' then (b', k', num_add c' c) :: l'
      else (b', k', c') :: gather b k c l'
  end.

Definition coeff_mul (a : option number) (n : number) : option number :=
  match a with Some m => Some (num_mul m n) | None => None end.

Definition mul_step (p : product) (o : Expr) : product :=
  match o with
  | Number n => mkProduct (coeff_mul (coeff p) n) (ipow p) (powers p)
  | ImaginaryUnit => mkProduct (coeff p) (ipow p + 1) (powers p)
  | Pow ImaginaryUnit (Number (Integer k)) =>
      mkProduct (coeff p) (ipow p + k) (powers p)
  | Func Exp [x] =>
      let '(c, k) := as_coeff_Mul x in
      mkProduct (coeff p) (ipow p) (gather Exp1 k c (powers p))
  | Pow b e =>
      let '(c, k) := as_coeff_Mul e in
      mkProduct (coeff p) (ipow p) (gather b k c (powers p))
  | _ => mkProduct (coeff p) (ipow p) (gather o One (Integer 1) (powers p))
  end.

Definition mul_gather (seq : list Expr) : product :=
  fold_left mul_step (flat_map Mul_args seq) (mkProduct (Some (Integer 1)) 0 []).

(** [exp(x)]: only [exp(0)] and [exp(1)] evaluate. *)
Definition exp_ (x : Expr) : Expr :=
  if is_Zero x then One else if is_One x then Exp1 else Func Exp [x].

(** One gathered power back as an expression: [b ** e] evaluated. *)
Definition power_expr (pw : power) : Expr :=
  let '(b, k, c) := pw in
  let e := mul_coeff_term c k in
  if is_One e then b
  else
    match b with
    | Exp1 => exp_ e
    | _ => Pow b e
    end.

Definition product_expr (p : product) : Expr :=
  match coeff p with
  | None => ComplexInfinity
  | Some c0 =>
      let i := (ipow p) mod 4 in
      let c := if (i =? 2) || (i =? 3) then num_neg c0 else c0 in
      let unit := if (i =? 1) || (i =? 3) then [ImaginaryUnit] else [] in
      let c_part :=
        sort_args
          (unit ++ map power_expr
                       (filter (fun '(_, _, e) => negb (num_is_zero e)) (powers p))) in
      if num_is_zero c then Zero
      else
        match c_part with
        | [] => Number c
        | [Add terms] =>
            if num_is_one c then Add terms
            else add_flatten (map (mul_coeff_term c) terms)
        | _ => if num_is_one c then make_mul c_part else Mul (Number c :: c_part)
        end
  end.

(** [Mul] applied to arguments. *)
Definition Mul_ (args : list Expr) : Expr :=
  match filter (fun a => negb (is_One a)) args with
  | [] => One
  | [x] => x
  | args' => product_expr (mul_gather args')
  end.

(** [product_expr] in two halves: the coefficient and the factors of a
    gathered product before they are sorted, and the expression built from
    the coefficient and the sorted factors ([product_expr_parts]). *)
Definition product_parts (p : product) : option (number * list Expr) :=
  match coeff p with
  | None => None
  | Some c0 =>
      let i := (ipow p) mod 4 in
      let c := if (i =? 2) || (i =? 3) then num_neg c0 else c0 in
      let unit := if (i =? 1) || (i =? 3) then [ImaginaryUnit] else [] in
      Some (c, (unit ++ map power_expr
                          (filter (fun '(_, _, e) => negb (num_is_zero e))
                                  (powers p)))%list)
  end.

Definition product_build (c : number) (c_part : list Expr) : Expr :=
  if num_is_zero c then Zero
  else
    match c_part with
    | [] => Number c
    | [Add terms] =>
        if num_is_one c then Add terms
        else add_flatten (map (mul_coeff_term c) terms)
    | _ => if num_is_one c then make_mul c_part else Mul (Number c :: c_part)
    end.

Definition coeff_pow (a : option number) (n : Z) : option number :=
  match a with Some m => num_pow m n | None => None end.

Definition product_pow (p : product) (n : Z) : product :=
  mkProduct (coeff_pow (coeff p) n) (ipow p * n)
            (map (fun '(b, k, c) => (b, k, num_mul c (Integer n))) (powers p)).

(** [Pow(b, e)]: [x**0] is [1], [x**1] is [x]; an integer power of a
    number, of [I], of a power, of [exp] or of a product is evaluated;
    [E**x] is [exp(x)]; anything else stays a [Pow]. *)
Definition Pow_ (b e : Expr) : Expr :=
  match e with
  | Number (Integer 0) => One
  | Number (Integer 1) => b
  | Number (Integer n) =>
      match b with
      | Add _ => Pow b e
      | _ => product_expr (product_pow (mul_gather [b]) n)
      end
  | _ =>
      match b with
      | Exp1 => exp_ e
      | Number (Integer 1) => One
      | _ => Pow b e
      end
  end.

(** Python's operators on expressions. *)
Definition add (x y : Expr) : Expr := Add_ [x; y].
Definition mul (x y : Expr) : Expr := Mul_ [x; y].
Definition neg (x : Expr) : Expr := Mul_ [NegativeOne; x].
Definition sub (x y : Expr) : Expr := Add_ [x; neg y].
Definition div (x y : Expr) : Expr := Mul_ [x; Pow_ y NegativeOne].

Declare Scope sympy_scope.
Delimit Scope sympy_scope with sym.
Infix "+" := add : sympy_scope.
Infix "*" := mul : sympy_scope.
Infix "-" := sub : sympy_scope.
Infix "/" := div : sympy_scope.
Notation "- x" := (neg x) : sympy_scope.
Infix "**" := Pow_ (at level 30, right associativity) : sympy_scope.

(** ** Queries on expressions *)

(** [expr.args]. *)
Definition args_of (x : Expr) : list Expr :=
  match x with
  | Pow b e => [b; e]
  | Mul args | Add args | Func _ args | AppliedUndef _ args => args
  | Integral fn v lo hi => [fn; v; lo; hi]
  | FourierTransform fn t f => [fn; t; f]
  | _ => []
  end.

(** [expr.has(pattern)] for an expression pattern: some subexpression is
    structurally equal to the pattern. *)
Fixpoint has (x pat : Expr) {struct x} : bool :=
  expr_eqb x pat ||
  match x with
  | Pow b e => has b pat || has e pat
  | Mul args | Add args | Func _ args | AppliedUndef _ args =>
      existsb (fun a => has a pat) args
  | Integral fn v lo hi => has fn pat || has v pat || has lo pat || has hi pat
  | FourierTransform fn t f => has fn pat || has t pat || has f pat
  | _ => false
  end.

(** [expr.has(sym.function.AppliedUndef)]. *)
Fixpoint has_AppliedUndef (x : Expr) : bool :=
  match x with
  | AppliedUndef _ _ => true
  | Pow b e => has_AppliedUndef b || has_AppliedUndef e
  | Mul args | Add args | Func _ args => existsb has_AppliedUndef args
  | Integral fn v lo hi =>
      has_AppliedUndef fn || has_AppliedUndef v || has_AppliedUndef lo
      || has_AppliedUndef hi
  | FourierTransform fn t f =>
      has_AppliedUndef fn || has_AppliedUndef t || has_AppliedUndef f
  | _ => false
  end.

(** [expr.has(h)] for a function class such as [sym.cos]. *)
Fixpoint has_Func (h : fname) (x : Expr) : bool :=
  match x with
  | Func g args => fname_eqb g h || existsb (has_Func h) args
  | Pow b e => has_Func h b || has_Func h e
  | Mul args | Add args | AppliedUndef _ args => existsb (has_Func h) args
  | Integral fn v lo hi =>
      has_Func h fn || has_Func h v || has_Func h lo || has_Func h hi
  | FourierTransform fn t f => has_Func h fn || has_Func h t || has_Func h f
  | _ => false
  end.

(** Some [Symbol] occurs in the expression, free or as the variable of an
    integral. *)
Fixpoint has_Symbol (x : Expr) : bool :=
  match x with
  | Symbol _ _ => true
  | Pow b e => has_Symbol b || has_Symbol e
  | Mul args | Add args | Func _ args | AppliedUndef _ args =>
      existsb has_Symbol args
  | Integral fn v lo hi =>
      has_Symbol fn || has_Symbol v || has_Symbol lo || has_Symbol hi
  | FourierTransform fn t f => has_Symbol fn || has_Symbol t || has_Symbol f
  | _ => false
  end.

(** What the assumptions of symbols and the values of numbers settle. *)
Definition is_positive (x : Expr) : bool :=
  match x with
  | Number n => 0 <? num_sgn n
  | Symbol _ Positive | Pi | Exp1 | Infinity => true
  | _ => false
  end.

Definition is_negative (x : Expr) : bool :=
  match x with
  | Number n => num_sgn n <? 0
  | NegativeInfinity => true
  | _ => false
  end.

Definition is_real (x : Expr) : bool :=
  match x with
  | Number _ | Pi | Exp1 => true
  | Symbol _ Real | Symbol _ Positive => true
  | _ => false
  end.

Definition is_Abs (x : Expr) : bool :=
  match x with Func Abs _ => true | _ => false end.

(** [Abs(x)] of something that is not a product. *)
Fixpoint Abs_term (x : Expr) : Expr :=
  match x with
  | Number n => Number (num_abs n)
  | ImaginaryUnit => One
  | Pow b (Number (Integer n)) =>
      if is_real b then
        if Z.even n then x else Pow_ (Abs_term b) (Number (Integer n))
      else Func Abs [x]
  | _ => if is_positive x then x else Func Abs [x]
  end.

(** [Abs(x)], Python's [abs(x)]: the factors of a product whose absolute
    value is known are taken out. *)
Definition Abs_ (x : Expr) : Expr :=
  match x with
  | Mul args =>
      let known := filter (fun a => negb (is_Abs a)) (map Abs_term args) in
      let unk := filter (fun a => is_Abs (Abs_term a)) args in
      match unk with
      | [] => Mul_ known
      | _ => Mul_ [Mul_ known; Func Abs [Mul_ unk]]
      end
  | _ => Abs_term x
  end.

Definition is_sign (x : Expr) : bool :=
  match x with Func Sign _ => true | _ => false end.

(** [sign(x)]: factors of known sign are taken out of a product, and a
    factor [I] multiplies the result by [I]. *)
Definition sign_term (x : Expr) : Expr :=
  match x with
  | Number n => Number (Integer (num_sgn n))
  | ImaginaryUnit => ImaginaryUnit
  | _ => if is_positive x then One else Func Sign [x]
  end.

Definition sign_ (x : Expr) : Expr :=
  match x with
  | Mul args =>
      let known := filter (fun a => negb (is_sign a)) (map sign_term args) in
      let unk := filter (fun a => is_sign (sign_term a)) args in
      match unk with
      | [] => Mul_ known
      | _ => Mul_ [Mul_ known; Func Sign [Mul_ unk]]
      end
  | _ => sign_term x
  end.

(** A SymPy function applied to arguments, evaluated. *)
Definition apply_Func (h : fname) (args : list Expr) : Expr :=
  match h, args with
  | Exp, [x] => exp_ x
  | Abs, [x] => Abs_ x
  | Sign, [x] => sign_ x
  | Cos, [x] => if is_Zero x then One else Func Cos [x]
  | Sin, [x] => if is_Zero x then Zero else Func Sin [x]
  | _, _ => Func h args
  end.

(** [expr.func] applied to new arguments, as [subs], [replace] and [rewrite] call
    it after they changed an argument. *)
Definition rebuild (x : Expr) (args : list Expr) : Expr :=
  match x, args with
  | Pow _ _, [b; e] => Pow_ b e
  | Mul _, _ => Mul_ args
  | Add _, _ => Add_ args
  | Func h _, _ => apply_Func h args
  | AppliedUndef name _, _ => AppliedUndef name args
  | Integral _ _ _ _, [fn; v; lo; hi] => Integral fn v lo hi
  | FourierTransform _ _ _, [fn; t; f] => FourierTransform fn t f
  | _, _ => x
  end.

(** [expr.replace(old, new)], [old] an expression: bottom up, every
    occurrence of [old] becomes [new]; an expression none of whose
    arguments changed is kept as it is. *)
Fixpoint replace (x old new : Expr) {struct x} : Expr :=
  let x' :=
    match x with
    | Pow _ _ | Mul _ | Add _ | Func _ _ | AppliedUndef _ _
    | Integral _ _ _ _ | FourierTransform _ _ _ =>
        let args' :=
          match x with
          | Pow b e => [replace b old new; replace e old new]
          | Mul args | Add args | Func _ args | AppliedUndef _ args =>
              map (fun a => replace a old new) args
          | Integral fn v lo hi =>
              [replace fn old new; replace v old new;
               replace lo old new; replace hi old new]
          | FourierTransform fn t f =>
              [replace fn old new; replace t old new; replace f old new]
          | _ => []
          end in
        if list_eqb args' (args_of x) then x else rebuild x args'
    | _ => x
    end in
  if expr_eqb x' old then new else x'.

(** [expr.subs(old, new)], [old] a symbol: top down; the variable of an
    integral is bound, and only the limits of an integral over [old]
    change. *)
Fixpoint subs (x old new : Expr) {struct x} : Expr :=
  if expr_eqb x old then new
  else
    match x with
    | Pow _ _ | Mul _ | Add _ | Func _ _ | AppliedUndef _ _
    | Integral _ _ _ _ | FourierTransform _ _ _ =>
        let args' :=
          match x with
          | Pow b e => [subs b old new; subs e old new]
          | Mul args | Add args | Func _ args | AppliedUndef _ args =>
              map (fun a => subs a old new) args
          | Integral fn v lo hi =>
              if expr_eqb v old
              then [fn; v; subs lo old new; subs hi old new]
              else [subs fn old new; v; subs lo old new; subs hi old new]
          | FourierTransform fn t f =>
              [subs fn old new; subs t old new; subs f old new]
          | _ => []
          end in
        if list_eqb args' (args_of x) then x else rebuild x args'
    | _ => x
    end.

(** ** Ordered factors and terms

    [as_ordered_factors] and [as_ordered_terms] sort by SymPy's sort keys,
    not by the canonical order of arguments. *)

Definition fname_name (h : fname) : string :=
  match h with
  | Exp => "exp" | Cos => "cos" | Sin => "sin" | Abs => "Abs"
  | Sign => "sign" | DiracDelta => "DiracDelta" | Heaviside => "Heaviside"
  end.

(** [cls.class_key()]: numbers, then atoms, then [Mul], [Add], [Pow], then
    functions (undefined functions before SymPy's own), then the rest. *)
Definition class_key (x : Expr) : Z * Z * string :=
  match x with
  | Number _ => (1, 0, "Number")
  | Exp1 => (2, 0, "Exp1")
  | Pi => (2, 0, "Pi")
  | ImaginaryUnit => (2, 0, "ImaginaryUnit")
  | Infinity => (2, 0, "Infinity")
  | NegativeInfinity => (2, 0, "NegativeInfinity")
  | ComplexInfinity => (2, 0, "ComplexInfinity")
  | Symbol _ _ => (2, 0, "Symbol")
  | Mul _ => (3, 0, "Mul")
  | Add _ => (3, 1, "Add")
  | Pow _ _ => (3, 2, "Pow")
  | Func Exp _ => (4, 10, "exp")
  | Func Sin _ => (4, 20, "sin")
  | Func Cos _ => (4, 21, "cos")
  | Func h _ => (4, 10000, fname_name h)
  | AppliedUndef name _ => (4, 0, name)
  | Integral _ _ _ _ => (5, 0, "Integral")
  | FourierTransform _ _ _ => (5, 0, "FourierTransform")
  end.

Definition class_key_compare (j k : Z * Z * string) : comparison :=
  let '(a, b, c) := j in
  let '(a', b', c') := k in
  lex (a ?= a') (lex (b ?= b') (String.compare c c')).

(** The base and exponent under which [Expr.sort_key] files a factor. *)
Definition sort_base_exp (x : Expr) : Expr * Expr :=
  match snd (as_coeff_Mul x) with
  | Pow b e => (b, e)
  | y => (y, One)
  end.

(** Order of two factors by sort key: class of the base, the base, the
    exponent, the coefficient.  Within one class the bases are compared
    by [compare]: by name for symbols and undefined functions, as SymPy
    does. *)
Definition sort_key_compare (x y : Expr) : comparison :=
  let '(bx, ex) := sort_base_exp x in
  let '(by_, ey) := sort_base_exp y in
  lex (class_key_compare (class_key bx) (class_key by_))
      (lex (compare bx by_)
           (lex (compare ex ey)
                (num_compare (fst (as_coeff_Mul x)) (fst (as_coeff_Mul y))))).

Section Sorting.
Context {A : Type} (cmp : A -> A -> comparison).

(** Stable insertion sort, ascending in [cmp]. *)
Fixpoint insert_by (x : A) (l : list A) : list A :=
  match l with
  | [] => [x]
  | y :: l' =>
      match cmp x y with
      | Lt => x :: l
      | _ => y :: insert_by x l'
      end
  end.

Definition sort_by (l : list A) : list A :=
  fold_left (fun acc x => insert_by x acc) l [].
End Sorting.

(** [expr.as_ordered_factors()]. *)
Definition as_ordered_factors (x : Expr) : list Expr :=
  match x with
  | Mul args => sort_by sort_key_compare args
  | _ => [x]
  end.

(** [expr.is_number]: no symbol and no undefined function inside. *)
Definition is_number (x : Expr) : bool :=
  negb (has_Symbol x) && negb (has_AppliedUndef x).

(** The generator and integer exponent a factor contributes to the
    monomial of its term ([decompose_power]). *)
Definition decompose_power (x : Expr) : Expr * Z :=
  match x with
  | Pow b (Number (Integer n)) => (b, n)
  | Func Exp [e] =>
      match as_coeff_Mul e with
      | (Integer 1, _) => (x, 1)
      | (Integer n, k) => (exp_ k, n)
      | _ => (x, 1)
      end
  | _ => (x, 1)
  end.

(** The generators of a term: its factors that are not numbers. *)
Definition term_powers (term : Expr) : list (Expr * Z) :=
  map decompose_power (filter (fun a => negb (is_number a)) (Mul_args term)).

Fixpoint insert_gen (g : Expr) (gens : list Expr) : list Expr :=
  match gens with
  | [] => [g]
  | h :: gens' =>
      if expr_eqb g h then gens
      else
        match sort_key_compare g h with
        | Lt => g :: gens
        | _ => h :: insert_gen g gens'
        end
  end.

Definition gens_of (terms : list Expr) : list Expr :=
  fold_left (fun gens g => insert_gen g gens)
            (map fst (flat_map term_powers terms)) [].

Fixpoint degree_in (g : Expr) (pws : list (Expr * Z)) : Z :=
  match pws with
  | [] => 0
  | (b, n) :: pws' => if expr_eqb b g then n else degree_in g pws'
  end.

Definition monomial (gens : list Expr) (term : Expr) : list Z :=
  map (fun g => degree_in g (term_powers term)) gens.

(** Higher degree in the first generator first. *)
Fixpoint monomial_compare (m n : list Z) : comparison :=
  match m, n with
  | a :: m', b :: n' => lex (b ?= a) (monomial_compare m' n')
  | _, _ => Eq
  end.

(** The numeric coefficient of a term as [(re, im)], for the order among
    terms of one monomial.  SymPy takes it in floating point; here it is
    the exact coefficient of the leading number and of [I], other numeric
    factors counting as one. *)
Definition coeff_key (term : Expr) : number * number :=
  let c := fst (as_coeff_Mul term) in
  if existsb (fun a => expr_eqb a ImaginaryUnit) (Mul_args term)
  then (Integer 0, c) else (c, Integer 0).

Definition coeff_compare (x y : Expr) : comparison :=
  let '(re, im) := coeff_key x in
  let '(re', im') := coeff_key y in
  lex (Bool.compare (negb (num_is_zero im)) (negb (num_is_zero im')))
      (lex (num_compare im im') (num_compare re re')).

Definition term_compare (gens : list Expr) (x y : Expr) : comparison :=
  lex (monomial_compare (monomial gens x) (monomial gens y))
      (coeff_compare x y).

(** [expr.as_ordered_terms()]: the terms by decreasing monomial.  This is
    the order of the SymPy releases the module was written for (its
    comments name 1.2 and 1.3).  Later releases return a positive number
    followed by a negative multiple, as in [3 - 2*t], in that order; the
    properties below on sums are stated for sums that are not of that
    shape. *)
Definition as_ordered_terms (x : Expr) : list Expr :=
  match x with
  | Add args => sort_by (term_compare (gens_of args)) args
  | _ => [x]
  end.

(** ** [expand] and [rewrite] *)

(** The product of two expanded expressions, multiplied out. *)
Definition mul_expand (x y : Expr) : Expr :=
  match x, y with
  | Add _, _ | _, Add _ =>
      Add_ (flat_map (fun a => map (fun b => Mul_ [a; b]) (Add_args y))
                     (Add_args x))
  | _, _ => Mul_ [x; y]
  end.

Fixpoint pow_expand (x : Expr) (n : nat) : Expr :=
  match n with
  | O => One
  | S O => x
  | S n' => mul_expand x (pow_expand x n')
  end.

(** [expr.expand()] under its default hints: products and positive
    integer powers of sums are multiplied out, a sum in an exponent
    splits the power, and the arguments of functions are expanded. *)
Fixpoint expand (x : Expr) : Expr :=
  match x with
  | Add args => Add_ (map expand args)
  | Mul args => fold_left mul_expand (map expand args) One
  | Pow b e =>
      let b' := expand b in
      let e' := expand e in
      match e', b' with
      | Number (Integer n), Add _ =>
          if 1 <? n then pow_expand b' (Z.to_nat n)
          else if n <? -1 then Pow_ (pow_expand b' (Z.to_nat (- n))) NegativeOne
          else Pow_ b' e'
      | Add es, _ => Mul_ (map (Pow_ b') es)
      | _, _ => Pow_ b' e'
      end
  | Func Exp [e] =>
      match expand e with
      | Add es => Mul_ (map exp_ es)
      | e' => exp_ e'
      end
  | Func h args => apply_Func h (map expand args)
  | AppliedUndef name args => AppliedUndef name (map expand args)
  | Integral fn v lo hi =>
      match expand fn with
      | Add fs => Add_ (map (fun i => Integral i v lo hi) fs)
      | fn' => Integral fn' v lo hi
      end
  | _ => x
  end.

(** [expr.rewrite(sym.exp)]: bottom up, [cos(x)] becomes
    [(exp(x*I) + exp(-x*I))/2] and [sin(x)] becomes
    [(exp(x*I) - exp(-x*I))/(2*I)]; every other node is built again from its
    rewritten arguments. *)
Fixpoint rewrite_exp (x : Expr) : Expr :=
  match x with
  | Pow b e => Pow_ (rewrite_exp b) (rewrite_exp e)
  | Mul args => Mul_ (map rewrite_exp args)
  | Add args => Add_ (map rewrite_exp args)
  | Func Cos [a] =>
      let a' := rewrite_exp a in
      div (add (exp_ (mul a' ImaginaryUnit))
               (exp_ (mul (neg a') ImaginaryUnit)))
          (Number (Integer 2))
  | Func Sin [a] =>
      let a' := rewrite_exp a in
      div (sub (exp_ (mul a' ImaginaryUnit))
               (exp_ (mul (neg a') ImaginaryUnit)))
          (mul (Number (Integer 2)) ImaginaryUnit)
  | Func h args => apply_Func h (map rewrite_exp args)
  | AppliedUndef name args => AppliedUndef name (map rewrite_exp args)
  | Integral fn v lo hi =>
      Integral (rewrite_exp fn) (rewrite_exp v) (rewrite_exp lo) (rewrite_exp hi)
  | FourierTransform fn t f =>
      FourierTransform (rewrite_exp fn) (rewrite_exp t) (rewrite_exp f)
  | _ => x
  end.

(** ** Names *)

(** The characters of 7-bit ASCII. *)
Definition is_ascii (c : ascii) : bool := (nat_of_ascii c <? 128)%nat.

(** [c.upper()] and [c.lower()] of a one-character string.  Python's
    methods follow Unicode; on the characters of 7-bit ASCII they are the
    two functions below, and every property about a name whose first
    character is not fixed is stated for a first character with
    [is_ascii]. *)
Definition upper (c : ascii) : ascii :=
  let n := nat_of_ascii c in
  if ((97 <=? n) && (n <=? 122))%nat then ascii_of_nat (n - 32) else c.

Definition lower (c : ascii) : ascii :=
  let n := nat_of_ascii c in
  if ((65 <=? n) && (n <=? 90))%nat then ascii_of_nat (n + 32) else c.

(** A [Symbol], as the source and target variables of a transform are. *)
Record symbol : Type := mkSymbol {
  symbol_name : string;
  symbol_assumption : assumption
}.

Definition sym (v : symbol) : Expr :=
  Symbol (symbol_name v) (symbol_assumption v).

(** [str(v)] of a symbol is its name. *)
Definition str (v : symbol) : string := symbol_name v.

Definition symbol_eqb (u v : symbol) : bool :=
  String.eqb (symbol_name u) (symbol_name v)
  && assumption_eqb (symbol_assumption u) (symbol_assumption v).

(** ['%d' % m]. *)
Definition decimal (m : nat) : string :=
  DecimalString.NilZero.string_of_uint (Nat.to_uint m).

(** ** Exceptions *)

(** The messages of the module's [ValueError]s, each with the expressions
    that are formatted into it. *)
Inductive message : Type :=
| Does_not_contain (t : Expr) (e : Expr)
| Too_many_terms (e : Expr)
| Not_a_scale_and_shift (e : Expr)
| Could_not_compute (e : Expr)
| Expecting_function (e : Expr)
| Weird_function (factor : Expr) (t : Expr)
| Cannot_compute (rest : Expr).

(** The exceptions that occur.  [SympifyError] is the error of SymPy's
    parser; SymPy declares it as a subclass of [ValueError]. *)
Inductive exception : Type :=
| ValueError (m : message)
| IndexError
| TypeError
| SympifyError
| RecursionError.

(** [isinstance(e, ValueError)], the test of an [except ValueError]
    clause. *)
Definition is_ValueError (e : exception) : bool :=
  match e with
  | ValueError _ | SympifyError => true
  | _ => false
  end.

Inductive outcome (A : Type) : Type :=
| Ok (a : A)
| Raise (e : exception).

Arguments Ok {A} a.
Arguments Raise {A} e.

Definition bind {A B : Type} (r : outcome A) (k : A -> outcome B) : outcome B :=
  match r with
  | Ok a => k a
  | Raise e => Raise e
  end.

Notation "x <- r ;; k" := (bind r (fun x => k))
  (at level 61, r at next level, right associativity).
Notation "' p <- r ;; k" := (bind r (fun p => k))
  (at level 61, p pattern, r at next level, right associativity).

(** [l[i]]. *)
Definition index {A : Type} (l : list A) (i : nat) : outcome A :=
  match nth_error l i with
  | Some a => Ok a
  | None => Raise IndexError
  end.

(** ** The collaborators in SymPy

    The general solver, the simplifier, the string parser and the test for
    constancy of an expression with symbols are collaborators of the
    module; they are parameters of the engine.
    [parse_symbol name] stands for [sym.sympify(name)] and
    [parse_call name arg] for [sym.sympify(name + '(' + arg + ')')].
    [probes_constant x] stands for the answer of [x.is_constant()] for an
    expression [x] in which a symbol occurs: SymPy answers [True] when no
    symbol is free, and otherwise simplifies the expression, evaluates it
    at sample points and differentiates it; [true] stands for the answer
    [True], [false] for the answers [False] and [None], which [not] takes
    alike. *)
Record sympy : Type := mkSympy {
  solver : Expr -> Expr -> Expr -> Expr;
  simplify : Expr -> Expr;
  parse_symbol : string -> outcome Expr;
  parse_call : string -> string -> outcome Expr;
  probes_constant : Expr -> bool
}.

(** [expr.is_constant()], called with no symbol: [True] for an expression
    in which no symbol occurs, and what SymPy finds otherwise. *)
Definition is_constant (sy : sympy) (x : Expr) : bool :=
  negb (has_Symbol x) || probes_constant sy x.

(** What the parser makes of identifiers that SymPy does not bind: a
    complex symbol, and an undefined function applied to one. *)
Definition reads_symbol (sy : sympy) (name : string) : Prop :=
  parse_symbol sy name = Ok (Symbol name Complex).

Definition reads_call (sy : sympy) (name arg : string) : Prop :=
  parse_call sy name arg = Ok (AppliedUndef name [Symbol arg Complex]).

(** A SymPy whose solver finds no closed form, whose simplifier changes
    nothing, whose parser binds no name and whose probing finds no
    expression with symbols constant. *)
Definition bare_sympy : sympy :=
  mkSympy (fun e t f => FourierTransform e t f)
          (fun e => e)
          (fun name => Ok (Symbol name Complex))
          (fun name arg => Ok (AppliedUndef name [Symbol arg Complex]))
          (fun e => false).


(** * The module [lcapy/fourier.py] *)

(** [fourier_cache]: a dictionary keyed by [(expr, t, f, inverse)]. *)
Definition cache_key : Type := Expr * symbol * symbol * bool.

Definition key_eqb (j k : cache_key) : bool :=
  let '(e, t, f, inv) := j in
  let '(e', t', f', inv') := k in
  expr_eqb e e' && symbol_eqb t t' && symbol_eqb f f' && Bool.eqb inv inv'.

Definition fourier_cache : Type := list (cache_key * Expr).

Fixpoint lookup (k : cache_key) (c : fourier_cache) : option Expr :=
  match c with
  | [] => None
  | (j, v) :: c' => if key_eqb k j then Some v else lookup k c'
  end.

(** [fourier_cache[k] = v]: an existing entry is replaced in place, a new
    one is added. *)
Fixpoint store (k : cache_key) (v : Expr) (c : fourier_cache) : fourier_cache :=
  match c with
  | [] => [(k, v)]
  | (j, w) :: c' => if key_eqb k j then (j, v) :: c' else (j, w) :: store k v c'
  end.

Definition factor_const (expr : Expr) (t : symbol) : Expr * Expr :=
  let '(rest, const) :=
    fold_left
      (fun '(rest, const) factor =>
         if negb (has factor (sym t)) then (rest, mul const factor)
         else (mul rest factor, const))
      (as_ordered_factors expr) (One, One) in
  (const, rest).

Definition scale_shift (sy : sympy) (expr : Expr) (t : symbol)
  : outcome (Expr * Expr) :=
  if negb (has expr (sym t)) then
    Raise (ValueError (Does_not_contain (sym t) expr))
  else
    let terms := as_ordered_terms expr in
    if (2 <? List.length terms)%nat then
      Raise (ValueError (Too_many_terms expr))
    else if (List.length terms =? 1)%nat then
      term0 <- index terms 0 ;;
      Ok (div term0 (sym t), Zero)
    else
      term0 <- index terms 0 ;;
      let scale := div term0 (sym t) in
      if negb (is_constant sy scale) then
        Raise (ValueError (Not_a_scale_and_shift expr))
      else
        term1 <- index terms 1 ;;
        Ok (scale, term1).

Definition is_FourierTransform (x : Expr) : bool :=
  match x with FourierTransform _ _ _ => true | _ => false end.

Definition is_AppliedUndef (x : Expr) : bool :=
  match x with AppliedUndef _ _ => true | _ => false end.

(** The literal [2j], which SymPy reads as [2.0*I]. *)
Definition two_j : Expr := mul (Number (Float 2 1)) ImaginaryUnit.

Definition two : Expr := Number (Integer 2).

Section Engine.

Variable sy : sympy.

Definition fourier_sympy (expr : Expr) (t : symbol) (f : Expr)
  : outcome Expr :=
  let result := solver sy expr (sym t) f in
  if negb (is_Zero expr) && is_Zero result then
    Raise (ValueError (Could_not_compute expr))
  else if is_FourierTransform result then
    Raise (ValueError (Could_not_compute expr))
  else Ok result.

Definition fourier_func (expr : Expr) (t f : symbol) (inverse : bool)
  : outcome Expr :=
  match expr with
  | AppliedUndef name args =>
      arg0 <- index args 0 ;;
      '(scale, shift) <- scale_shift sy arg0 t ;;
      fsym <- parse_symbol sy (str f) ;;
      match name with
      | EmptyString => Raise IndexError
      | String c rest =>
          let func := String (if inverse then lower c else upper c) rest in
          parsed <- parse_call sy func (str f) ;;
          let result :=
            div (subs parsed fsym (div (sym f) scale)) (Abs_ scale) in
          if negb (is_Zero shift) then
            let shift := if inverse then neg shift else shift in
            Ok (mul result
                    (exp_ (div (mul (mul (mul two_j Pi) (sym f)) shift) scale)))
          else Ok result
      end
  | _ => Raise (ValueError (Expecting_function expr))
  end.

Section Function.

(** The recursive calls of [fourier_function] go to [fourier_term]. *)
Variable fourier_term : Expr -> symbol -> symbol -> bool -> outcome Expr.

(** The loop that splits the factors into the undefined functions of
    [t] and the rest. *)
Fixpoint split_undefs (factors : list Expr) (t : symbol)
         (rest : Expr) (undefs : list Expr) : outcome (Expr * list Expr) :=
  match factors with
  | [] => Ok (rest, undefs)
  | factor :: factors' =>
      if is_AppliedUndef factor then
        arg0 <- index (args_of factor) 0 ;;
        if negb (expr_eqb arg0 (sym t)) then
          Raise (ValueError (Weird_function factor (sym t)))
        else split_undefs factors' t rest (undefs ++ [factor])%list
      else split_undefs factors' t (mul rest factor) undefs
  end.

(** The loop that folds each further piece in as a convolution;
    [m] counts the pieces done. *)
Fixpoint convolve (pieces : list Expr) (m : nat) (t f : symbol)
         (inverse : bool) (dummy : string) (result : Expr)
  : outcome Expr :=
  match pieces with
  | [] => Ok result
  | piece :: pieces' =>
      nu <- parse_symbol sy
              (if (m =? 0)%nat then dummy else dummy ++ "_" ++ decimal m) ;;
      expr2 <- fourier_term piece t f inverse ;;
      convolve pieces' (Datatypes.S m) t f inverse dummy
               (Integral (mul (subs result (sym f) (sub (sym f) nu))
                              (subs expr2 (sym f) nu))
                         nu NegativeInfinity Infinity)
  end.

Definition fourier_function (expr : Expr) (t f : symbol) (inverse : bool)
  : outcome Expr :=
  if negb (has_AppliedUndef expr) then
    Raise (ValueError (Could_not_compute expr))
  else
    let '(const, expr) := factor_const expr t in
    fsym <- parse_symbol sy (str f) ;;
    if is_AppliedUndef expr then
      r <- fourier_func expr t f inverse ;;
      Ok (mul r const)
    else
      tsym <- parse_symbol sy (str t) ;;
      let expr := subs expr tsym (sym t) in
      '(rest, undefs) <- split_undefs (as_ordered_factors expr) t One [] ;;
      if has_AppliedUndef rest then
        Raise (ValueError (Cannot_compute rest))
      else
        let exprs := undefs in
        let '(exprs, rest) :=
          if has rest (sym t) then ((exprs ++ [rest])%list, One)
          else (exprs, rest) in
        expr0 <- index exprs 0 ;;
        r0 <- fourier_term expr0 t f inverse ;;
        let result := mul r0 rest in
        if (List.length exprs =? 1)%nat then Ok (mul result const)
        else
          let dummy := if inverse then "tau" else "nu" in
          result <- convolve (tl exprs) 0 t f inverse dummy result ;;
          Ok (mul result const).

End Function.

(** The loop of [fourier_term] over the factors: the constant, the
    exponentials and the others. *)
Definition split_factors (factors : list Expr) (t : symbol)
  : Expr * Expr * Expr :=
  fold_left
    (fun '(const, other, exps) factor =>
       if negb (has factor (sym t)) then (mul const factor, other, exps)
       else
         match factor with
         | Func Exp _ => (const, other, mul exps factor)
         | _ => (const, mul other factor, exps)
         end)
    factors (One, One, One).

Definition is_Pow_minus_one (x : Expr) : bool :=
  match x with
  | Pow _ (Number (Integer (-1))) => true
  | _ => false
  end.

Definition is_Add (x : Expr) : bool :=
  match x with Add _ => true | _ => false end.

(** [fourier_term] below its first test, for a term without undefined
    functions.

    [DiracDelta] and [Heaviside] are built as nodes.  SymPy's constructors
    return the node unless the assumptions settle the argument: they
    return a number for an argument known to be real and not zero (for
    [Heaviside], known to be positive, negative or zero) and raise a
    [ValueError] for an argument known to have an imaginary part that is
    not zero.  The target variable alone is settled when it is a positive
    symbol; [f - p] and [-f - p] are not settled when [f] is a real symbol
    without a sign and [p] is real and free of [f].  The properties that
    mention an impulse or a step are stated for such arguments. *)
Definition fourier_term_rules (expr : Expr) (t f : symbol) (inverse : bool)
  : outcome Expr :=
  let sf := if inverse then neg (sym f) else sym f in
  if negb (has expr (sym t)) then
    Ok (mul expr (Func DiracDelta [sym f]))
  else
    let '(const, other, exps) :=
      split_factors (as_ordered_factors expr) t in
    if negb (is_One other) && is_One exps then
      if expr_eqb other (sym t) then
        Ok (mul (mul (mul (mul const ImaginaryUnit) two) Pi)
                (Func DiracDelta [sym f; One]))
      else if expr_eqb other (Pow_ (sym t) two) then
        Ok (mul (mul const (Pow_ (mul (mul ImaginaryUnit two) Pi) two))
                (Func DiracDelta [sym f; two]))
      else
        let punt := fourier_sympy expr t sf in
        if is_Pow_minus_one other then
          foo <- index (args_of other) 0 ;;
          if is_Add foo then
            foo1 <- index (args_of foo) 1 ;;
            if has foo1 (sym t) then
              let bar := div foo1 (sym t) in
              if negb (has bar (sym t)) && has bar ImaginaryUnit then
                foo0 <- index (args_of foo) 0 ;;
                let a :=
                  div (neg (mul (mul (mul foo0 two) Pi) ImaginaryUnit)) bar in
                Ok (mul (mul const (exp_ (mul (neg a) sf)))
                        (Func Heaviside [mul sf (sign_ a)]))
              else punt
            else punt
          else punt
        else punt
    else
      args <- index (args_of exps) 0 ;;
      let foo := div args (sym t) in
      if has foo (sym t) then fourier_sympy expr t sf
      else if negb (is_One exps) && has foo ImaginaryUnit then
        Ok (mul const
                (Func DiracDelta
                      [sub sf (div foo (mul (mul ImaginaryUnit two) Pi))]))
      else fourier_sympy expr t sf.

(** [fourier_term] and [fourier_function] call each other; [depth]
    bounds the nesting of calls, as the interpreter's recursion limit
    does. *)
Fixpoint fourier_term_depth (depth : nat) (expr : Expr) (t f : symbol)
         (inverse : bool) : outcome Expr :=
  if has_AppliedUndef expr then
    match depth with
    | O => Raise RecursionError
    | Datatypes.S depth' =>
        fourier_function (fourier_term_depth depth') expr t f inverse
    end
  else fourier_term_rules expr t f inverse.

(** Two levels are all that a call ever uses ([fourier_term_depth_enough]). *)
Definition fourier_term : Expr -> symbol -> symbol -> bool -> outcome Expr :=
  fourier_term_depth 2.

(** The loop of [fourier_transform] over the terms. *)
Fixpoint sum_terms (terms : list Expr) (t f : symbol) (inverse : bool)
         (result : Expr) : outcome Expr :=
  match terms with
  | [] => Ok result
  | term :: terms' =>
      r <- fourier_term term t f inverse ;;
      sum_terms terms' t f inverse (add result r)
  end.

(** [try: ... except ValueError: raise ValueError('Could not compute
    Fourier transform for ' + str(orig_expr))] around a computation with
    the outcome [r]. *)
Definition except_ValueError (orig_expr : Expr) (r : outcome Expr)
  : outcome Expr :=
  match r with
  | Ok result => Ok result
  | Raise e =>
      if is_ValueError e then Raise (ValueError (Could_not_compute orig_expr))
      else Raise e
  end.

(** [fourier_transform] after a cache miss, up to the store. *)
Definition fourier_transform_miss (expr : Expr) (t f : symbol)
           (inverse : bool) : outcome Expr :=
  let '(t, f) := if inverse then (f, t) else (t, f) in
  let var := Symbol (str t) Complex in
  let expr := replace expr var (sym t) in
  let orig_expr := expr in
  let expr :=
    if has_Func Cos expr || has_Func Sin expr then rewrite_exp expr
    else expr in
  let terms := as_ordered_terms (expand expr) in
  except_ValueError orig_expr (sum_terms terms t f inverse Zero).

Definition fourier_transform (cache : fourier_cache) (expr : Expr)
           (t f : symbol) (inverse : bool)
  : outcome Expr * fourier_cache :=
  let key := (expr, t, f, inverse) in
  match lookup key cache with
  | Some r => (Ok r, cache)
  | None =>
      match fourier_transform_miss expr t f inverse with
      | Ok result => (Ok result, store key result cache)
      | Raise e => (Raise e, cache)
      end
  end.

Definition inverse_fourier_transform (cache : fourier_cache) (expr : Expr)
           (f t : symbol) : outcome Expr * fourier_cache :=
  let '(r, cache') := fourier_transform cache expr t f true in
  (result <- r ;; Ok (simplify sy result), cache').

End Engine.





(** The caches that calls of [fourier_transform] can leave behind,
    starting from the empty dictionary the module is loaded with. *)
Inductive reachable (sy : sympy) : fourier_cache -> Prop :=
| reachable_empty : reachable sy []
| reachable_call cache expr t f inverse :
    reachable sy cache ->
    reachable sy (snd (fourier_transform sy cache expr t f inverse)).

(** What [fourier_function] hands back to [fourier_term]: an undefined
    function whose first argument is [t], or something without undefined
    functions. *)
Definition piece_of (t : symbol) (x : Expr) : Prop :=
  (exists name arg0 args,
      x = AppliedUndef name (arg0 :: args) /\ expr_eqb arg0 (sym t) = true)
  \/ has_AppliedUndef x = false.

(** The cache after a sequence of calls, each given by its arguments. *)
Definition run_calls (sy : sympy) (cache : fourier_cache)
           (calls : list cache_key) : fourier_cache :=
  fold_left
    (fun c '(expr, t, f, inverse) =>
       snd (fourier_transform sy c expr t f inverse))
    calls cache.

Definition is_upper (c : ascii) : bool :=
  let n := nat_of_ascii c in ((65 <=? n) && (n <=? 90))%nat.

(** The symbols of the module's own [test()]: [t] and [f] real, [a]
    positive; and some inputs built from them. *)
Module Example.

Definition t : symbol := mkSymbol "t" Real.
Definition f : symbol := mkSymbol "f" Real.
Definition a : Expr := Symbol "a" Positive.
Definition x : Expr := Symbol "x" Complex.
Definition y : Expr := Symbol "y" Complex.

(** [v(t**2)], [v(2*t + 3)], [v(2*t + x + y)] and [v(x)]. *)
Definition v_of_t_squared : Expr := AppliedUndef "v" [Pow_ (sym t) two].


Definition v_of_2t_plus_x_plus_y : Expr :=
  AppliedUndef "v" [add (add (mul two (sym t)) x) y].

Definition v_of_x : Expr := AppliedUndef "v" [x].







Definition nu : Expr := Symbol "nu" Complex.

(** [fourier_cache] after [fourier_transform(a, t, f)]. *)
Definition cache_after_a : fourier_cache :=
  snd (fourier_transform bare_sympy [] a t f false).

End Example.

(** The orchestrator's normalisation leaves [x] as it is: no symbol that
    only prints like the source variable [t], no cosine or sine, nothing
    to expand. *)
Definition normalised (x : Expr) (t : symbol) : Prop :=
  replace x (Symbol (str t) Complex) (sym t) = x
  /\ has_Func Cos x = false
  /\ has_Func Sin x = false
  /\ expand x = x.

(** ** Definitions for the further properties *)

(** [factor.is_Function and factor.func == sym.exp]. *)
Definition is_exp (x : Expr) : bool :=
  match x with Func Exp _ => true | _ => false end.

(** [x] is real whatever real values its symbols take: it is built from
    numbers, [pi], [E] and symbols that are real or positive by sums,
    products and integer powers of positive numbers and symbols. *)
Fixpoint real_valued (x : Expr) : bool :=
  match x with
  | Number _ | Pi | Exp1 => true
  | Symbol _ Real | Symbol _ Positive => true
  | Pow b (Number (Integer _)) => is_positive b && real_valued b
  | Mul args | Add args => forallb real_valued args
  | _ => false
  end.

(** The name of the [m]-th dummy variable of a convolution. *)
Definition dummy_name (dummy : string) (m : nat) : string :=
  if (m =? 0)%nat then dummy else dummy ++ "_" ++ decimal m.

(** [sin(2*pi*a*t)], as [test()] builds it. *)
Definition sine_of (a : Expr) : Expr :=
  Func Sin [mul (mul (mul two Pi) a) (sym Example.t)].

(** [lacks pat x]: [x] does not contain the symbol [pat]
    ([lacks_spec]); undefined functions are allowed. *)
Fixpoint lacks (pat x : Expr) {struct x} : bool :=
  match x with
  | Symbol _ _ => negb (expr_eqb x pat)
  | Pow b e => lacks pat b && lacks pat e
  | Mul args | Add args | Func _ args | AppliedUndef _ args =>
      forallb (lacks pat) args
  | Integral fn v lo hi =>
      lacks pat fn && lacks pat v && lacks pat lo && lacks pat hi
  | FourierTransform fn t f => lacks pat fn && lacks pat t && lacks pat f
  | _ => true
  end.

Definition lacks_terms (pat : Expr) (l : list (Expr * number)) : bool :=
  forallb (fun p => lacks pat (fst p)) l.

Definition lacks_powers (pat : Expr) (l : list power) : bool :=
  forallb (fun p => lacks pat (fst (fst p)) && lacks pat (snd (fst p))) l.

(** * Properties *)

(** ** Structural equality *)

Section Expr_induction.

Variable P : Expr -> Prop.

Hypothesis HNumber : forall n, P (Number n).
Hypothesis HExp1 : P Exp1.
Hypothesis HPi : P Pi.
Hypothesis HImaginaryUnit : P ImaginaryUnit.
Hypothesis HInfinity : P Infinity.
Hypothesis HNegativeInfinity : P NegativeInfinity.
Hypothesis HComplexInfinity : P ComplexInfinity.
Hypothesis HSymbol : forall name a, P (Symbol name a).
Hypothesis HPow : forall b e, P b -> P e -> P (Pow b e).
Hypothesis HMul : forall args, Forall P args -> P (Mul args).
Hypothesis HAdd : forall args, Forall P args -> P (Add args).
Hypothesis HFunc : forall h args, Forall P args -> P (Func h args).
Hypothesis HAppliedUndef :
  forall name args, Forall P args -> P (AppliedUndef name args).
Hypothesis HIntegral :
  forall fn v lo hi, P fn -> P v -> P lo -> P hi -> P (Integral fn v lo hi).
Hypothesis HFourierTransform :
  forall fn t f, P fn -> P t -> P f -> P (FourierTransform fn t f).

Fixpoint Expr_nested_ind (x : Expr) : P x :=
  let all :=
    fix all (l : list Expr) : Forall P l :=
      match l with
      | [] => Forall_nil P
      | a :: l' => Forall_cons a (Expr_nested_ind a) (all l')
      end in
  match x with
  | Number n => HNumber n
  | Exp1 => HExp1
  | Pi => HPi
  | ImaginaryUnit => HImaginaryUnit
  | Infinity => HInfinity
  | NegativeInfinity => HNegativeInfinity
  | ComplexInfinity => HComplexInfinity
  | Symbol name a => HSymbol name a
  | Pow b e => HPow b e (Expr_nested_ind b) (Expr_nested_ind e)
  | Mul args => HMul args (all args)
  | Add args => HAdd args (all args)
  | Func h args => HFunc h args (all args)
  | AppliedUndef name args => HAppliedUndef name args (all args)
  | Integral fn v lo hi =>
      HIntegral fn v lo hi (Expr_nested_ind fn) (Expr_nested_ind v)
                (Expr_nested_ind lo) (Expr_nested_ind hi)
  | FourierTransform fn t f =>
      HFourierTransform fn t f (Expr_nested_ind fn) (Expr_nested_ind t)
                        (Expr_nested_ind f)
  end.

End Expr_induction.

Lemma num_eqb_eq (a b : number) : num_eqb a b = true <-> a = b.
Proof.
  destruct a as [x|p q|p q], b as [y|p' q'|p' q']; simpl;
    try (split; [discriminate | congruence]).
  - rewrite Z.eqb_eq. split; congruence.
  - rewrite andb_true_iff, Z.eqb_eq, Pos.eqb_eq.
    split; [intros [-> ->]; reflexivity | intros [= -> ->]; auto].
  - rewrite andb_true_iff, Z.eqb_eq, Pos.eqb_eq.
    split; [intros [-> ->]; reflexivity | intros [= -> ->]; auto].
Qed.

Lemma assumption_eqb_eq (a b : assumption) : assumption_eqb a b = true <-> a = b.
Proof. destruct a, b; simpl; split; congruence. Qed.

Lemma fname_eqb_eq (g h : fname) : fname_eqb g h = true <-> g = h.
Proof. destruct g, h; vm_compute; split; congruence. Qed.

Lemma expr_eqb_Mul xs ys : expr_eqb (Mul xs) (Mul ys) = list_eqb xs ys.
Proof. reflexivity. Qed.

Lemma expr_eqb_Add xs ys : expr_eqb (Add xs) (Add ys) = list_eqb xs ys.
Proof. reflexivity. Qed.

Lemma expr_eqb_Func g h xs ys :
  expr_eqb (Func g xs) (Func h ys) = fname_eqb g h && list_eqb xs ys.
Proof. reflexivity. Qed.

Lemma expr_eqb_AppliedUndef m n xs ys :
  expr_eqb (AppliedUndef m xs) (AppliedUndef n ys)
  = String.eqb m n && list_eqb xs ys.
Proof. reflexivity. Qed.

Lemma list_eqb_eq_of (xs : list Expr) :
  Forall (fun x => forall y, expr_eqb x y = true <-> x = y) xs ->
  forall ys, list_eqb xs ys = true <-> xs = ys.
Proof.
  induction 1 as [|x xs Hx _ IH]; intros [|y ys]; simpl;
    try (split; [discriminate | congruence]).
  - split; reflexivity.
  - rewrite andb_true_iff, Hx, IH.
    split; [intros [-> ->]; reflexivity | intros [= -> ->]; auto].
Qed.

Lemma expr_eqb_eq (x y : Expr) : expr_eqb x y = true <-> x = y.
Proof.
  revert y. induction x using Expr_nested_ind; intros y; destruct y;
    try (simpl; split; (discriminate || congruence)).
  - simpl. rewrite num_eqb_eq. split; congruence.
  - simpl. rewrite andb_true_iff, String.eqb_eq, assumption_eqb_eq.
    split; [intros [-> ->]; reflexivity | intros [= -> ->]; auto].
  - simpl. rewrite andb_true_iff, IHx1, IHx2.
    split; [intros [-> ->]; reflexivity | intros [= -> ->]; auto].
  - rewrite expr_eqb_Mul, (list_eqb_eq_of _ H). split; congruence.
  - rewrite expr_eqb_Add, (list_eqb_eq_of _ H). split; congruence.
  - rewrite expr_eqb_Func, andb_true_iff, fname_eqb_eq, (list_eqb_eq_of _ H).
    split; [intros [-> ->]; reflexivity | intros [= -> ->]; auto].
  - rewrite expr_eqb_AppliedUndef, andb_true_iff, String.eqb_eq,
      (list_eqb_eq_of _ H).
    split; [intros [-> ->]; reflexivity | intros [= -> ->]; auto].
  - simpl. rewrite !andb_true_iff, IHx1, IHx2, IHx3, IHx4.
    split; [intros [[[-> ->] ->] ->]; reflexivity | intros [= -> -> -> ->]; auto].
  - simpl. rewrite !andb_true_iff, IHx1, IHx2, IHx3.
    split; [intros [[-> ->] ->]; reflexivity | intros [= -> -> ->]; auto].
Qed.

Lemma expr_eqb_refl (x : Expr) : expr_eqb x x = true.
Proof. apply expr_eqb_eq. reflexivity. Qed.

Lemma list_eqb_eq (xs ys : list Expr) : list_eqb xs ys = true <-> xs = ys.
Proof.
  apply list_eqb_eq_of. apply Forall_forall. intros x _ y. apply expr_eqb_eq.
Qed.

Lemma list_eqb_refl (xs : list Expr) : list_eqb xs xs = true.
Proof. apply list_eqb_eq. reflexivity. Qed.

Lemma symbol_eqb_eq (u v : symbol) : symbol_eqb u v = true <-> u = v.
Proof.
  destruct u as [m a], v as [n b]. unfold symbol_eqb. simpl.
  rewrite andb_true_iff, String.eqb_eq, assumption_eqb_eq.
  split; [intros [-> ->]; reflexivity | intros [= -> ->]; auto].
Qed.

Lemma key_eqb_eq (j k : cache_key) : key_eqb j k = true <-> j = k.
Proof.
  destruct j as [[[e t] f] i], k as [[[e' t'] f'] i']. unfold key_eqb.
  rewrite !andb_true_iff, expr_eqb_eq, !symbol_eqb_eq, Bool.eqb_true_iff.
  split; [intros [[[-> ->] ->] ->]; reflexivity | intros [= -> -> -> ->]; auto].
Qed.

Lemma key_eqb_refl (k : cache_key) : key_eqb k k = true.
Proof. apply key_eqb_eq. reflexivity. Qed.

(** ** The cache *)

Lemma store_absent k v (c : fourier_cache) :
  lookup k c = None -> store k v c = (c ++ [(k, v)])%list.
Proof.
  induction c as [|[j w] c IH]; simpl; [reflexivity|].
  destruct (key_eqb k j); [discriminate|]. intros H. now rewrite IH.
Qed.

Lemma lookup_app k (c d : fourier_cache) :
  lookup k (c ++ d)%list
  = match lookup k c with Some v => Some v | None => lookup k d end.
Proof.
  induction c as [|[j w] c IH]; simpl; [reflexivity|].
  destruct (key_eqb k j); [reflexivity | exact IH].
Qed.

Lemma lookup_store_same k v (c : fourier_cache) :
  lookup k (store k v c) = Some v.
Proof.
  induction c as [|[j w] c IH]; simpl.
  - now rewrite key_eqb_refl.
  - destruct (key_eqb k j) eqn:E; simpl; rewrite E; [reflexivity | exact IH].
Qed.

Lemma lookup_store_kept j v k w (c : fourier_cache) :
  lookup j c = None -> lookup k c = Some w -> lookup k (store j v c) = Some w.
Proof.
  intros Hj Hk. rewrite (store_absent _ _ _ Hj), lookup_app, Hk. reflexivity.
Qed.

Lemma fourier_transform_hit sy cache expr t f inverse v :
  lookup (expr, t, f, inverse) cache = Some v ->
  fourier_transform sy cache expr t f inverse = (Ok v, cache).
Proof. intros H. unfold fourier_transform. now rewrite H. Qed.

Lemma fourier_transform_absent sy cache expr t f inverse :
  lookup (expr, t, f, inverse) cache = None ->
  fourier_transform sy cache expr t f inverse
  = match fourier_transform_miss sy expr t f inverse with
    | Ok result => (Ok result, store (expr, t, f, inverse) result cache)
    | Raise e => (Raise e, cache)
    end.
Proof. intros H. unfold fourier_transform. now rewrite H. Qed.

(** A call keeps every entry the cache already has. *)
Lemma fourier_transform_keeps sy cache expr t f inverse k v :
  lookup k cache = Some v ->
  lookup k (snd (fourier_transform sy cache expr t f inverse)) = Some v.
Proof.
  intros Hk. unfold fourier_transform.
  destruct (lookup (expr, t, f, inverse) cache) eqn:Hhit; [exact Hk|].
  destruct (fourier_transform_miss sy expr t f inverse); simpl; [|exact Hk].
  now apply lookup_store_kept.
Qed.

(** The entries of a reachable cache are results of completed transforms
    of their keys. *)
Lemma reachable_sound sy cache :
  reachable sy cache ->
  forall expr t f inverse v,
    lookup (expr, t, f, inverse) cache = Some v ->
    fourier_transform_miss sy expr t f inverse = Ok v.
Proof.
  induction 1 as [|cache e0 t0 f0 i0 Hc IH]; intros expr t f inverse v; simpl.
  - discriminate.
  - unfold fourier_transform.
    destruct (lookup (e0, t0, f0, i0) cache) eqn:Hhit; simpl; [apply IH|].
    destruct (fourier_transform_miss sy e0 t0 f0 i0) as [r|ex] eqn:Hmiss;
      simpl; [|apply IH].
    rewrite (store_absent _ _ _ Hhit), lookup_app.
    destruct (lookup (expr, t, f, inverse) cache) eqn:Hk.
    + intros [= <-]. now apply IH.
    + cbn [lookup]. destruct (key_eqb (expr, t, f, inverse) (e0, t0, f0, i0)) eqn:E;
        [|discriminate].
      apply key_eqb_eq in E. injection E as -> -> -> ->.
      intros [= <-]. exact Hmiss.
Qed.

(** ** The nesting of [fourier_term] and [fourier_function] *)

Lemma mul_One_l (x : Expr) : mul One x = x.
Proof.
  unfold mul, Mul_. simpl. destruct (is_One x) eqn:E; simpl; [|reflexivity].
  destruct x as [[[| [] |]| |]| | | | | | | | | | | | | |]; simpl in E;
    try discriminate; reflexivity.
Qed.

Lemma mul_One_r (x : Expr) : mul x One = x.
Proof.
  unfold mul, Mul_. simpl. destruct (is_One x) eqn:E; simpl; [|reflexivity].
  destruct x as [[[| [] |]| |]| | | | | | | | | | | | | |]; simpl in E;
    try discriminate; reflexivity.
Qed.

Lemma add_Zero_l (x : Expr) : add Zero x = x.
Proof.
  unfold add, Add_. simpl. destruct (is_Zero x) eqn:E; simpl; [|reflexivity].
  destruct x as [[[| |]| |]| | | | | | | | | | | | | |]; simpl in E;
    try discriminate; reflexivity.
Qed.

Lemma split_undefs_pieces t factors :
  forall rest undefs rest' undefs',
    Forall (piece_of t) undefs ->
    split_undefs factors t rest undefs = Ok (rest', undefs') ->
    Forall (piece_of t) undefs'.
Proof.
  induction factors as [|factor factors IH]; intros rest undefs rest' undefs' Hu;
    simpl.
  - intros [= _ <-]. exact Hu.
  - destruct (is_AppliedUndef factor) eqn:Hf; [|apply IH; exact Hu].
    destruct factor; try discriminate. simpl.
    destruct args as [|arg0 args]; simpl; [discriminate|].
    destruct (expr_eqb arg0 (sym t)) eqn:E; simpl; [|discriminate].
    apply IH. apply Forall_app. split; [exact Hu|].
    constructor; [|constructor]. left. now exists name, arg0, args.
Qed.

Section Depth.

Variable sy : sympy.
Variables g1 g2 : Expr -> symbol -> symbol -> bool -> outcome Expr.
Variables (t f : symbol) (inverse : bool).

Hypothesis agree : forall x, piece_of t x -> g1 x t f inverse = g2 x t f inverse.

Lemma convolve_ext pieces dummy :
  Forall (piece_of t) pieces ->
  forall m result,
    convolve sy g1 pieces m t f inverse dummy result
    = convolve sy g2 pieces m t f inverse dummy result.
Proof.
  induction 1 as [|piece pieces Hp _ IH]; intros m result; simpl;
    [reflexivity|].
  destruct (parse_symbol sy _); simpl; [|reflexivity].
  rewrite (agree _ Hp). destruct (g2 piece t f inverse); simpl;
    [apply IH | reflexivity].
Qed.

Lemma fourier_function_ext expr :
  fourier_function sy g1 expr t f inverse
  = fourier_function sy g2 expr t f inverse.
Proof.
  unfold fourier_function.
  destruct (negb (has_AppliedUndef expr)); [reflexivity|].
  destruct (factor_const expr t) as [const expr'].
  destruct (parse_symbol sy (str f)); simpl; [|reflexivity].
  destruct (is_AppliedUndef expr'); [reflexivity|].
  destruct (parse_symbol sy (str t)); simpl; [|reflexivity].
  destruct (split_undefs _ t One []) as [[rest undefs]|] eqn:Hs; simpl;
    [|reflexivity].
  destruct (has_AppliedUndef rest) eqn:Hr; [reflexivity|].
  assert (Hu : Forall (piece_of t) undefs)
    by (eapply split_undefs_pieces; [constructor | exact Hs]).
  assert (Hall : Forall (piece_of t) (undefs ++ [rest])%list).
  { apply Forall_app. split; [exact Hu|]. constructor; [|constructor].
    now right. }
  destruct (has rest (sym t)).
  - destruct (undefs ++ [rest])%list as [|expr0 exprs] eqn:He;
      simpl; [reflexivity|].
    inversion Hall as [|? ? H0 Hrest]; subst.
    rewrite (agree _ H0). destruct (g2 expr0 t f inverse); simpl;
      [|reflexivity].
    destruct (List.length exprs =? 0)%nat; [reflexivity|].
    now rewrite (convolve_ext _ _ Hrest).
  - destruct undefs as [|expr0 exprs]; simpl; [reflexivity|].
    inversion Hu as [|? ? H0 Hrest]; subst.
    rewrite (agree _ H0). destruct (g2 expr0 t f inverse); simpl;
      [|reflexivity].
    destruct (List.length exprs =? 0)%nat; [reflexivity|].
    now rewrite (convolve_ext _ _ Hrest).
Qed.

End Depth.

(** On a single undefined function that contains [t], [fourier_function]
    goes straight to [fourier_func], whatever it would call back. *)
Lemma fourier_function_undef sy g name args t f inverse :
  has (AppliedUndef name args) (sym t) = true ->
  fourier_function sy g (AppliedUndef name args) t f inverse
  = (fsym <- parse_symbol sy (str f) ;;
     fourier_func sy (AppliedUndef name args) t f inverse).
Proof.
  intros Hhas. unfold fourier_function, factor_const.
  cbn [has_AppliedUndef negb as_ordered_factors fold_left].
  rewrite Hhas. cbn [negb]. rewrite mul_One_l. cbn [is_AppliedUndef].
  destruct (parse_symbol sy (str f)); cbn [bind]; [|reflexivity].
  destruct (fourier_func sy (AppliedUndef name args) t f inverse);
    cbn [bind]; [|reflexivity].
  now rewrite mul_One_r.
Qed.

Lemma has_first_argument name arg0 args pat :
  expr_eqb arg0 pat = true -> has (AppliedUndef name (arg0 :: args)) pat = true.
Proof.
  intros E. cbn [has existsb]. destruct arg0; cbn [has]; rewrite E;
    rewrite ?orb_true_r; reflexivity.
Qed.

Lemma fourier_term_depth_piece sy t f inverse x :
  piece_of t x ->
  forall n, fourier_term_depth sy (Datatypes.S n) x t f inverse
            = fourier_term_depth sy 1 x t f inverse.
Proof.
  intros [(name & arg0 & args & -> & E)|H] n.
  - cbn [fourier_term_depth has_AppliedUndef].
    now rewrite !fourier_function_undef by now apply has_first_argument.
  - destruct n; [reflexivity|]. cbn [fourier_term_depth]. now rewrite H.
Qed.

(** X3. Enough depth gives the result: a call never goes more than two
    levels deep, so [fourier_term] never raises [RecursionError] and any
    deeper bound computes the same. *)
Lemma fourier_term_depth_enough sy n expr t f inverse :
  fourier_term_depth sy (2 + n) expr t f inverse
  = fourier_term sy expr t f inverse.
Proof.
  unfold fourier_term. cbn [Nat.add fourier_term_depth].
  destruct (has_AppliedUndef expr); [|reflexivity].
  apply fourier_function_ext. intros x Hx.
  apply (fourier_term_depth_piece sy t f inverse x Hx n).
Qed.

(** ** The steps of the engine *)


Lemma map_replace_absent (args : list Expr) old new :
  Forall (fun a => has a old = false -> replace a old new = a) args ->
  existsb (fun a => has a old) args = false ->
  map (fun a => replace a old new) args = args.
Proof.
  induction 1 as [|a args Ha _ IH]; simpl; [reflexivity|].
  intros H. apply orb_false_iff in H as [H1 H2]. now rewrite Ha, IH.
Qed.

(** Replacing a symbol that does not occur changes nothing. *)
Lemma replace_absent (x old new : Expr) :
  has x old = false -> replace x old new = x.
Proof.
  induction x using Expr_nested_ind; cbn [has replace];
    intros Hx; apply orb_false_iff in Hx as [Hx Hs];
    try (rewrite Hx; reflexivity).
  - apply orb_false_iff in Hs as [H1 H2].
    rewrite IHx1, IHx2 by assumption. cbn [args_of].
    now rewrite list_eqb_refl, Hx.
  - rewrite (map_replace_absent _ _ _ H Hs). cbn [args_of].
    now rewrite list_eqb_refl, Hx.
  - rewrite (map_replace_absent _ _ _ H Hs). cbn [args_of].
    now rewrite list_eqb_refl, Hx.
  - rewrite (map_replace_absent _ _ _ H Hs). cbn [args_of].
    now rewrite list_eqb_refl, Hx.
  - rewrite (map_replace_absent _ _ _ H Hs). cbn [args_of].
    now rewrite list_eqb_refl, Hx.
  - apply orb_false_iff in Hs as [Hs H4].
    apply orb_false_iff in Hs as [Hs H3].
    apply orb_false_iff in Hs as [H1 H2].
    rewrite IHx1, IHx2, IHx3, IHx4 by assumption. cbn [args_of].
    now rewrite list_eqb_refl, Hx.
  - apply orb_false_iff in Hs as [Hs H3].
    apply orb_false_iff in Hs as [H1 H2].
    rewrite IHx1, IHx2, IHx3 by assumption. cbn [args_of].
    now rewrite list_eqb_refl, Hx.
Qed.

(** Replacing or substituting an expression by itself changes nothing. *)
Lemma map_replace_same (args : list Expr) old :
  Forall (fun a => replace a old old = a) args ->
  map (fun a => replace a old old) args = args.
Proof.
  induction 1 as [|a args Ha _ IH]; cbn [map]; [reflexivity|]. now rewrite Ha, IH.
Qed.

Lemma replace_same (x old : Expr) : replace x old old = x.
Proof.
  assert (Hfin : forall x', (if expr_eqb x' old then old else x') = x').
  { intros x'. destruct (expr_eqb x' old) eqn:E; [|reflexivity].
    apply expr_eqb_eq in E. now rewrite E. }
  induction x using Expr_nested_ind; cbn [replace]; try apply Hfin.
  - rewrite IHx1, IHx2. cbn [args_of]. rewrite list_eqb_refl. apply Hfin.
  - rewrite (map_replace_same _ _ H). cbn [args_of]. rewrite list_eqb_refl.
    apply Hfin.
  - rewrite (map_replace_same _ _ H). cbn [args_of]. rewrite list_eqb_refl.
    apply Hfin.
  - rewrite (map_replace_same _ _ H). cbn [args_of]. rewrite list_eqb_refl.
    apply Hfin.
  - rewrite (map_replace_same _ _ H). cbn [args_of]. rewrite list_eqb_refl.
    apply Hfin.
  - rewrite IHx1, IHx2, IHx3, IHx4. cbn [args_of]. rewrite list_eqb_refl.
    apply Hfin.
  - rewrite IHx1, IHx2, IHx3. cbn [args_of]. rewrite list_eqb_refl. apply Hfin.
Qed.

(** [subs] does nothing to an expression without the old symbol. *)
Lemma map_subs_absent (args : list Expr) old new :
  Forall (fun a => has a old = false -> subs a old new = a) args ->
  existsb (fun a => has a old) args = false ->
  map (fun a => subs a old new) args = args.
Proof.
  induction 1 as [|a args Ha _ IH]; cbn [existsb map]; intros H; [reflexivity|].
  apply orb_false_iff in H as [H1 H2]. now rewrite Ha, IH.
Qed.

Lemma subs_absent (x old new : Expr) :
  has x old = false -> subs x old new = x.
Proof.
  induction x using Expr_nested_ind; cbn [has subs];
    intros Hx; apply orb_false_iff in Hx as [Hx Hs]; rewrite Hx;
    try reflexivity.
  - apply orb_false_iff in Hs as [H1 H2].
    rewrite IHx1, IHx2 by assumption. cbn [args_of].
    now rewrite list_eqb_refl.
  - rewrite (map_subs_absent _ _ _ H Hs). cbn [args_of].
    now rewrite list_eqb_refl.
  - rewrite (map_subs_absent _ _ _ H Hs). cbn [args_of].
    now rewrite list_eqb_refl.
  - rewrite (map_subs_absent _ _ _ H Hs). cbn [args_of].
    now rewrite list_eqb_refl.
  - rewrite (map_subs_absent _ _ _ H Hs). cbn [args_of].
    now rewrite list_eqb_refl.
  - apply orb_false_iff in Hs as [Hs H4]. apply orb_false_iff in Hs as [Hs H3].
    apply orb_false_iff in Hs as [H1 H2].
    rewrite IHx1, IHx3, IHx4 by assumption. cbn [args_of].
    destruct (expr_eqb x2 old); now rewrite list_eqb_refl.
  - apply orb_false_iff in Hs as [Hs H3]. apply orb_false_iff in Hs as [H1 H2].
    rewrite IHx1, IHx2, IHx3 by assumption. cbn [args_of].
    now rewrite list_eqb_refl.
Qed.

Lemma map_subs_same (args : list Expr) old :
  Forall (fun a => subs a old old = a) args ->
  map (fun a => subs a old old) args = args.
Proof.
  induction 1 as [|a args Ha _ IH]; cbn [map]; [reflexivity|]. now rewrite Ha, IH.
Qed.

(** Substituting an expression for itself changes nothing. *)
Lemma subs_same (x old : Expr) : subs x old old = x.
Proof.
  induction x using Expr_nested_ind; cbn [subs];
    match goal with
    | |- (if expr_eqb ?y old then _ else _) = _ =>
        destruct (expr_eqb y old) eqn:E;
        [apply expr_eqb_eq in E; now rewrite E|]
    end; try reflexivity.
  - rewrite IHx1, IHx2. cbn [args_of]. now rewrite list_eqb_refl.
  - rewrite (map_subs_same _ _ H). cbn [args_of]. now rewrite list_eqb_refl.
  - rewrite (map_subs_same _ _ H). cbn [args_of]. now rewrite list_eqb_refl.
  - rewrite (map_subs_same _ _ H). cbn [args_of]. now rewrite list_eqb_refl.
  - rewrite (map_subs_same _ _ H). cbn [args_of]. now rewrite list_eqb_refl.
  - rewrite IHx1, IHx3, IHx4. cbn [args_of].
    destruct (expr_eqb x2 old); now rewrite list_eqb_refl.
  - rewrite IHx1, IHx2, IHx3. cbn [args_of]. now rewrite list_eqb_refl.
Qed.

(** Substitution of the twin of [t] by [t] changes nothing in an
    expression without the twin, and nothing at all when [t] is its own
    twin, a symbol without assumptions. *)
Lemma subs_twin x t :
  symbol_assumption t = Complex \/ has x (Symbol (str t) Complex) = false ->
  subs x (Symbol (str t) Complex) (sym t) = x.
Proof.
  intros [H | H]; [|now apply subs_absent].
  destruct t as [n a]. cbn [symbol_assumption] in H. subst a.
  apply subs_same.
Qed.

Lemma has_self x : has x x = true.
Proof. destruct x; cbn [has]; now rewrite expr_eqb_refl. Qed.

(** [product_expr] in its two halves. *)
Lemma product_expr_parts p c l :
  product_parts p = Some (c, l) ->
  product_expr p = product_build c (sort_args l).
Proof.
  unfold product_parts, product_expr, product_build.
  destruct (coeff p); [|discriminate]. intros H. injection H as <- <-. reflexivity.
Qed.

Lemma expand_Add args : expand (Add args) = Add_ (map expand args).
Proof. reflexivity. Qed.

Lemma expand_Mul args :
  expand (Mul args) = fold_left mul_expand (map expand args) One.
Proof. reflexivity. Qed.

(** The parsed dual function with the target variable put in. *)
Lemma subs_parsed name m new :
  subs (AppliedUndef name [Symbol m Complex]) (Symbol m Complex) new
  = AppliedUndef name [new].
Proof.
  cbn [subs expr_eqb map args_of assumption_eqb andb]. rewrite String.eqb_refl.
  destruct (list_eqb [new] [Symbol m Complex]) eqn:E; [|reflexivity].
  apply list_eqb_eq in E. now rewrite E.
Qed.

(** [fourier_term] on a single undefined function that contains [t]. *)
Lemma fourier_term_undef sy name args t f inverse :
  has (AppliedUndef name args) (sym t) = true ->
  fourier_term sy (AppliedUndef name args) t f inverse
  = (fsym <- parse_symbol sy (str f) ;;
     fourier_func sy (AppliedUndef name args) t f inverse).
Proof.
  intros H. unfold fourier_term. cbn [fourier_term_depth has_AppliedUndef].
  now apply fourier_function_undef.
Qed.

(** [fourier_term] on a single undefined function that does not contain
    [t]: the list of pieces is empty and [exprs[0]] raises. *)
Lemma fourier_term_undef_constant sy name args t f inverse :
  has (AppliedUndef name args) (sym t) = false ->
  reads_symbol sy (str f) ->
  reads_symbol sy (str t) ->
  fourier_term sy (AppliedUndef name args) t f inverse = Raise IndexError.
Proof.
  intros H Hf Ht. unfold fourier_term.
  cbn [fourier_term_depth has_AppliedUndef]. unfold fourier_function, factor_const.
  cbn [has_AppliedUndef negb as_ordered_factors fold_left].
  rewrite H. cbn [negb]. rewrite mul_One_l. rewrite Hf, Ht. reflexivity.
Qed.

(** The formula of [fourier_func], once [scale_shift] has split the
    argument. *)
Lemma fourier_func_formula sy c rest arg args t f (inverse : bool) scale shift :
  scale_shift sy arg t = Ok (scale, shift) ->
  reads_symbol sy (str f) ->
  reads_call sy (String (if inverse then lower c else upper c) rest) (str f) ->
  fourier_func sy (AppliedUndef (String c rest) (arg :: args)) t f inverse
  = Ok (let dual :=
          div (AppliedUndef (String (if inverse then lower c else upper c) rest)
                            [div (sym f) scale])
              (Abs_ scale) in
        if is_Zero shift then dual
        else mul dual
                 (exp_ (div (mul (mul (mul two_j Pi) (sym f))
                                 (if inverse then neg shift else shift))
                            scale))).
Proof.
  intros Hs Hf Hc. unfold fourier_func. cbn [index nth_error bind].
  rewrite Hs. cbn [bind]. rewrite Hf. cbn [bind]. rewrite Hc. cbn [bind].
  rewrite subs_parsed. destruct (is_Zero shift); reflexivity.
Qed.

(** The orchestrator on an input whose normal form is the single term
    [term]. *)
Lemma fourier_transform_miss_single sy expr t f (inverse : bool) term :
  let t' := if inverse then f else t in
  let f' := if inverse then t else f in
  let orig_expr := replace expr (Symbol (str t') Complex) (sym t') in
  as_ordered_terms
    (expand (if has_Func Cos orig_expr || has_Func Sin orig_expr
             then rewrite_exp orig_expr else orig_expr)) = [term] ->
  fourier_transform_miss sy expr t f inverse
  = except_ValueError orig_expr (fourier_term sy term t' f' inverse).
Proof.
  intros t' f' orig_expr H. unfold fourier_transform_miss.
  replace (if inverse then (f, t) else (t, f)) with (t', f')
    by (subst t' f'; now destruct inverse).
  fold orig_expr. rewrite H. cbn [sum_terms].
  destruct (fourier_term sy term t' f' inverse) as [r|e]; cbn [bind sum_terms];
    [|reflexivity].
  now rewrite add_Zero_l.
Qed.

(** ** Determinism and the cache (C8, C9) *)

Lemma run_calls_keeps sy calls :
  forall cache k v,
    lookup k cache = Some v -> lookup k (run_calls sy cache calls) = Some v.
Proof.
  induction calls as [|[[[expr t] f] inverse] calls IH]; intros cache k v Hk;
    [exact Hk|].
  apply IH. now apply fourier_transform_keeps.
Qed.

(** On a reachable cache a call returns what the computation without
    cache returns. *)
Lemma fourier_transform_reachable sy cache expr t f inverse :
  reachable sy cache ->
  fst (fourier_transform sy cache expr t f inverse)
  = fourier_transform_miss sy expr t f inverse.
Proof.
  intros Hc.
  destruct (lookup (expr, t, f, inverse) cache) as [r|] eqn:Hhit.
  - rewrite (fourier_transform_hit sy cache _ _ _ _ r Hhit). cbn [fst].
    symmetry. now apply (reachable_sound sy cache Hc).
  - rewrite (fourier_transform_absent sy cache _ _ _ _ Hhit).
    now destruct (fourier_transform_miss sy expr t f inverse).
Qed.

(** C8. Two calls of [fourier_transform] with equal arguments return
    equal results.  On every cache that calls of the function can have
    produced, the result is the one a computation without cache gives, so
    the cache does not show in the output; a second call with the same
    arguments returns the same result and leaves the cache as it is; and
    after a successful call the second one is answered from the cache
    alone, whatever solver, simplifier and parser stand behind it: no rule
    is evaluated. *)
Theorem repeated_call_is_cached sy cache expr t f inverse :
  reachable sy cache ->
  let first := fourier_transform sy cache expr t f inverse in
  fst first = fourier_transform_miss sy expr t f inverse
  /\ fourier_transform sy (snd first) expr t f inverse = first
  /\ (forall v, fst first = Ok v ->
      forall sy', fourier_transform sy' (snd first) expr t f inverse
                  = (Ok v, snd first)).
Proof.
  intros Hc. cbv zeta.
  destruct (lookup (expr, t, f, inverse) cache) as [r|] eqn:Hhit.
  - rewrite (fourier_transform_hit sy cache _ _ _ _ r Hhit). cbn [fst snd].
    split; [|split].
    + symmetry. now apply (reachable_sound sy cache Hc).
    + now apply fourier_transform_hit.
    + intros v [= <-] sy'. now apply fourier_transform_hit.
  - rewrite (fourier_transform_absent sy cache _ _ _ _ Hhit).
    destruct (fourier_transform_miss sy expr t f inverse) as [r|e] eqn:Hm;
      cbn [fst snd].
    + split; [reflexivity|]. split.
      * apply fourier_transform_hit, lookup_store_same.
      * intros v [= <-] sy'. apply fourier_transform_hit, lookup_store_same.
    + split; [reflexivity|]. split.
      * rewrite fourier_transform_absent by assumption. now rewrite Hm.
      * discriminate.
Qed.

Lemma repeated_call_is_cached_witness :
  reachable bare_sympy Example.cache_after_a
  /\ let first :=
       fourier_transform bare_sympy Example.cache_after_a
                         Example.a Example.t Example.f false in
     fst first = fourier_transform_miss bare_sympy Example.a Example.t Example.f false
     /\ fourier_transform bare_sympy (snd first) Example.a Example.t Example.f false
        = first
     /\ (forall v, fst first = Ok v ->
         forall sy', fourier_transform sy' (snd first) Example.a Example.t
                                       Example.f false
                     = (Ok v, snd first)).
Proof.
  assert (H : reachable bare_sympy Example.cache_after_a)
    by apply reachable_call, reachable_empty.
  split; [exact H|].
  exact (repeated_call_is_cached bare_sympy Example.cache_after_a
                                 Example.a Example.t Example.f false H).
Defined.

(** C9. Every entry of a cache that calls of [fourier_transform] have
    produced is keyed by [(expr, t, f, inverse)] and holds the result of the
    completed transform of its key; it is still there, with the same value,
    after any further sequence of calls; and a call that fails records
    nothing.  (No failure marker is ever stored: the value of an entry is
    always a result.) *)
Theorem cache_entries_are_permanent sy cache :
  reachable sy cache ->
  (forall expr t f inverse v,
      lookup (expr, t, f, inverse) cache = Some v ->
      fourier_transform_miss sy expr t f inverse = Ok v)
  /\ (forall calls k v,
         lookup k cache = Some v ->
         lookup k (run_calls sy cache calls) = Some v)
  /\ (forall expr t f inverse e,
         fst (fourier_transform sy cache expr t f inverse) = Raise e ->
         snd (fourier_transform sy cache expr t f inverse) = cache).
Proof.
  intros Hc. split; [|split].
  - now apply reachable_sound.
  - intros calls k v. apply run_calls_keeps.
  - intros expr t f inverse e. unfold fourier_transform.
    destruct (lookup (expr, t, f, inverse) cache); [reflexivity|].
    destruct (fourier_transform_miss sy expr t f inverse); [discriminate|].
    reflexivity.
Qed.

Lemma cache_entries_are_permanent_witness :
  reachable bare_sympy Example.cache_after_a
  /\ (forall expr t f inverse v,
         lookup (expr, t, f, inverse) Example.cache_after_a = Some v ->
         fourier_transform_miss bare_sympy expr t f inverse = Ok v)
  /\ (forall calls k v,
         lookup k Example.cache_after_a = Some v ->
         lookup k (run_calls bare_sympy Example.cache_after_a calls) = Some v)
  /\ (forall expr t f inverse e,
         fst (fourier_transform bare_sympy Example.cache_after_a expr t f inverse)
         = Raise e ->
         snd (fourier_transform bare_sympy Example.cache_after_a expr t f inverse)
         = Example.cache_after_a).
Proof.
  assert (H : reachable bare_sympy Example.cache_after_a)
    by apply reachable_call, reachable_empty.
  split; [exact H|].
  exact (cache_entries_are_permanent bare_sympy Example.cache_after_a H).
Defined.

(** ** Undefined functions (C4, C5, C7, C10) *)

Lemma div_symbol_self n a : div (Symbol n a) (Symbol n a) = One.
Proof.
  unfold div, Pow_, NegativeOne. cbn.
  rewrite String.eqb_refl. destruct a; reflexivity.
Qed.

Lemma div_One_r (x : Expr) : div x One = x.
Proof. exact (mul_One_r x). Qed.

Lemma scale_shift_symbol sy t : scale_shift sy (sym t) t = Ok (One, Zero).
Proof.
  destruct t as [n a]. unfold scale_shift, sym.
  cbn [symbol_name symbol_assumption has]. rewrite expr_eqb_refl.
  cbn [orb negb as_ordered_terms List.length Nat.ltb Nat.leb Nat.eqb index
       nth_error bind].
  now rewrite div_symbol_self.
Qed.

Lemma scale_shift_has sy arg t scale shift :
  scale_shift sy arg t = Ok (scale, shift) -> has arg (sym t) = true.
Proof.
  unfold scale_shift. destruct (has arg (sym t)); [reflexivity | discriminate].
Qed.

Lemma has_argument name arg0 args pat :
  has arg0 pat = true -> has (AppliedUndef name (arg0 :: args)) pat = true.
Proof.
  intros E. cbn [has existsb]. rewrite E. now rewrite orb_true_r.
Qed.

Lemma as_ordered_terms_not_Add (x : Expr) :
  is_Add x = false -> as_ordered_terms x = [x].
Proof. destruct x; simpl; (reflexivity || discriminate). Qed.

(** The orchestrator on a normalised single undefined function. *)
Lemma fourier_transform_miss_undef sy name args t f (inverse : bool) :
  let t' := if inverse then f else t in
  let f' := if inverse then t else f in
  normalised (AppliedUndef name args) t' ->
  fourier_transform_miss sy (AppliedUndef name args) t f inverse
  = except_ValueError (AppliedUndef name args)
                      (fourier_term sy (AppliedUndef name args) t' f' inverse).
Proof.
  intros t' f' (Hr & Hcos & Hsin & He).
  rewrite (fourier_transform_miss_single sy _ t f inverse (AppliedUndef name args)).
  - fold t' f'. now rewrite Hr.
  - fold t'. rewrite Hr, Hcos, Hsin. cbn [orb]. now rewrite He.
Qed.

(** An undefined function of the source variable alone is normalised. *)
Lemma normalised_function_of_t name t :
  normalised (AppliedUndef name [sym t]) t.
Proof.
  destruct t as [n a]. unfold normalised, sym, str.
  cbn [symbol_name symbol_assumption]. repeat split; try reflexivity.
  cbn [replace map]. 
  replace (if expr_eqb (Symbol n a) (Symbol n Complex) then Symbol n a
           else Symbol n a) with (Symbol n a)
    by now destruct (expr_eqb (Symbol n a) (Symbol n Complex)).
  cbn [args_of]. now rewrite list_eqb_refl.
Qed.



(** The transform of a normalised [v(arg)] whose argument [scale_shift]
    accepts, on any reachable cache. *)
Lemma fourier_transform_dual sy cache c rest arg t f (inverse : bool) scale shift :
  let t' := if inverse then f else t in
  let f' := if inverse then t else f in
  let name' := String (if inverse then lower c else upper c) rest in
  reachable sy cache ->
  normalised (AppliedUndef (String c rest) [arg]) t' ->
  scale_shift sy arg t' = Ok (scale, shift) ->
  reads_symbol sy (str f') ->
  reads_call sy name' (str f') ->
  fst (fourier_transform sy cache (AppliedUndef (String c rest) [arg]) t f inverse)
  = Ok (let dual :=
          div (AppliedUndef name' [div (sym f') scale]) (Abs_ scale) in
        if is_Zero shift then dual
        else mul dual
                 (exp_ (div (mul (mul (mul two_j Pi) (sym f'))
                                 (if inverse then neg shift else shift))
                            scale))).
Proof.
  intros t' f' name' Hc Hn Hs Hf Hcall.
  rewrite (fourier_transform_reachable sy cache _ _ _ _ Hc).
  rewrite (fourier_transform_miss_undef sy _ _ t f inverse Hn). fold t' f'.
  rewrite fourier_term_undef
    by (apply has_argument; exact (scale_shift_has _ _ _ _ _ Hs)).
  rewrite Hf. cbn [bind].
  now rewrite (fourier_func_formula sy c rest arg [] t' f' inverse scale shift
                                    Hs Hf Hcall).
Qed.

(** *** Integer scale and shift

    [k*t + d] as SymPy builds it, what [scale_shift] makes of it, and the
    orchestrator's normalisation of [v(k*t + d)]. *)
























(** C4 (the code departs from the claim). [v(t**2)] has an argument that
    is not affine in [t], yet [fourier_transform] raises nothing: the
    argument is a single term, [scale_shift] takes [t**2/t = t] as the scale
    without testing it, and the call returns [V(f/t)/Abs(t)] and stores it in
    the cache. *)
Theorem function_of_t_squared_is_not_refused sy cache :
  reachable sy cache ->
  reads_symbol sy "f" ->
  reads_call sy "V" "f" ->
  let call :=
    fourier_transform sy cache Example.v_of_t_squared Example.t Example.f false in
  let result :=
    div (AppliedUndef "V" [div (sym Example.f) (sym Example.t)])
        (Func Abs [sym Example.t]) in
  scale_shift sy (Pow_ (sym Example.t) two) Example.t = Ok (sym Example.t, Zero)
  /\ fst call = Ok result
  /\ lookup (Example.v_of_t_squared, Example.t, Example.f, false) (snd call)
     = Some result.
Proof.
  intros Hc Hf Hcall call result.
  assert (Hs : scale_shift sy (Pow_ (sym Example.t) two) Example.t
               = Ok (sym Example.t, Zero)) by reflexivity.
  assert (Hr : fst call = Ok result).
  { subst call. unfold Example.v_of_t_squared.
    rewrite (fourier_transform_dual sy cache "v"%char ""
               (Pow_ (sym Example.t) two) Example.t Example.f
               false (sym Example.t) Zero Hc);
      [reflexivity | | exact Hs | exact Hf | exact Hcall].
    repeat split. }
  split; [exact Hs|]. split; [exact Hr|].
  subst call. revert Hr. unfold fourier_transform.
  destruct (lookup _ cache) as [r|] eqn:Hhit; cbn [fst snd].
  - intros [= ->]. exact Hhit.
  - destruct (fourier_transform_miss sy _ _ _ _); cbn [fst snd];
      [|discriminate].
    intros [= ->]. apply lookup_store_same.
Qed.

Lemma function_of_t_squared_is_not_refused_witness :
  reachable bare_sympy []
  /\ reads_symbol bare_sympy "f"
  /\ reads_call bare_sympy "V" "f"
  /\ fst (fourier_transform bare_sympy [] Example.v_of_t_squared
                            Example.t Example.f false)
     = Ok (Mul [Pow (Func Abs [Symbol "t" Real]) (Number (Integer (-1)));
                AppliedUndef "V"
                  [Mul [Symbol "f" Real;
                        Pow (Symbol "t" Real) (Number (Integer (-1)))]]]).
Proof.
  split; [apply reachable_empty|]. split; [reflexivity|]. split; [reflexivity|].
  exact (proj1 (proj2 (function_of_t_squared_is_not_refused
                         bare_sympy [] (reachable_empty _) eq_refl eq_refl))).
Defined.

(** C7 (the code departs from the claim). A term that is an undefined
    function of something else than the source variable, such as [v(x)],
    makes [fourier_function] index an empty list.  The [IndexError] is not a
    [ValueError], the orchestrator does not catch it, and the call fails
    with an error that does not name the input. *)
Theorem constant_function_raises_IndexError sy cache name args t f :
  reachable sy cache ->
  normalised (AppliedUndef name args) t ->
  has (AppliedUndef name args) (sym t) = false ->
  reads_symbol sy (str f) ->
  reads_symbol sy (str t) ->
  fourier_transform sy cache (AppliedUndef name args) t f false
  = (Raise IndexError, cache).
Proof.
  intros Hc Hn Hhas Hf Ht.
  assert (Hm : fourier_transform_miss sy (AppliedUndef name args) t f false
               = Raise IndexError).
  { rewrite (fourier_transform_miss_undef sy _ _ t f false Hn).
    now rewrite fourier_term_undef_constant. }
  destruct (lookup (AppliedUndef name args, t, f, false) cache) as [r|] eqn:Hhit.
  - pose proof (reachable_sound sy cache Hc _ _ _ _ _ Hhit) as Hr. congruence.
  - rewrite fourier_transform_absent by assumption. now rewrite Hm.
Qed.

Lemma constant_function_raises_IndexError_witness :
  reachable bare_sympy []
  /\ normalised Example.v_of_x Example.t
  /\ has Example.v_of_x (sym Example.t) = false
  /\ reads_symbol bare_sympy "f"
  /\ reads_symbol bare_sympy "t"
  /\ fourier_transform bare_sympy [] Example.v_of_x Example.t Example.f false
     = (Raise IndexError, []).
Proof.
  split; [apply reachable_empty|]. split; [repeat split|].
  split; [reflexivity|]. split; [reflexivity|]. split; [reflexivity|].
  exact (constant_function_raises_IndexError
           bare_sympy [] "v" [Example.x] Example.t Example.f
           (reachable_empty _) (conj eq_refl (conj eq_refl (conj eq_refl eq_refl)))
           eq_refl eq_refl eq_refl).
Defined.


(** ** The rules for terms without undefined functions (C1, C2, C3) *)

(** Rule 4 on a pure exponential [exp(A)]: when [A/t] is free of [t] and
    contains [I], the term goes to the impulse at [(A/t)/(I*2*pi)]. *)
Lemma pure_exponential_rule sy A t f (inverse : bool) :
  has_AppliedUndef A = false ->
  has A (sym t) = true ->
  has (div A (sym t)) (sym t) = false ->
  has (div A (sym t)) ImaginaryUnit = true ->
  fourier_term sy (Func Exp [A]) t f inverse
  = Ok (Func DiracDelta
             [sub (if inverse then neg (sym f) else sym f)
                  (div (div A (sym t)) (mul (mul ImaginaryUnit two) Pi))]).
Proof.
  intros Hu Ht Hfoo HI. unfold fourier_term.
  cbn [fourier_term_depth has_AppliedUndef existsb]. rewrite Hu. cbn [orb].
  unfold fourier_term_rules.
  assert (Hhas : has (Func Exp [A]) (sym t) = true).
  { cbn [has existsb]. rewrite Ht. now rewrite orb_true_r. }
  rewrite Hhas. cbn [negb as_ordered_factors split_factors fold_left].
  rewrite Hhas. cbn [negb]. rewrite mul_One_l.
  cbn [is_One One negb andb args_of index nth_error bind].
  rewrite Hfoo, HI. cbn [andb]. now rewrite mul_One_l.
Qed.



(** Two symbols of different assumptions are never equal, so one of them
    comes first. *)
Lemma ltb_symbols m a n b :
  assumption_eqb a b = false ->
  ltb (Symbol m a) (Symbol n b) = negb (ltb (Symbol n b) (Symbol m a)).
Proof.
  intros H. unfold ltb. cbn [compare]. rewrite (String.compare_antisym m n).
  destruct (String.compare n m); destruct a, b; try discriminate H; reflexivity.
Qed.



(** [exp] of a product that has nothing to expand has nothing to expand. *)
Lemma expand_exponential args :
  expand (Mul args) = Mul args ->
  expand (Func Exp [Mul args]) = Func Exp [Mul args].
Proof.
  intros H.
  change (expand (Func Exp [Mul args]))
    with (match expand (Mul args) with
          | Add es => Mul_ (map exp_ es)
          | e' => exp_ e'
          end).
  rewrite H. reflexivity.
Qed.




(** *** Evaluation with a symbol of any name

    The canonical order of the arguments of a product depends on the names
    of its symbols.  For a symbol of unknown name the order of [a] and [t]
    is a hypothesis, and products are evaluated in two steps: the
    coefficient and the unsorted factors are computed, and the factors are
    sorted by insertion, each comparison decided by computation or by the
    hypothesis. *)

Ltac decide_ltb :=
  repeat match goal with
  | H : ltb ?x ?y = _ |- context [ltb ?x ?y] => rewrite H
  | |- context [ltb ?x ?y] =>
      let v := eval vm_compute in (ltb x y) in
      match v with
      | true => change (ltb x y) with true
      | false => change (ltb x y) with false
      end
  end.

Ltac sort_eval :=
  unfold sort_args; cbn [fold_left];
  repeat (cbn [insert_sorted]; decide_ltb; cbv beta iota).

Ltac eval_product E :=
  let E' := eval cbv beta delta [mul neg div] in E in
  lazymatch E' with
  | Mul_ ?args =>
    let r := eval vm_compute in (product_parts (mul_gather args)) in
    lazymatch r with
    | Some (?c, ?l) =>
      let Hs := fresh "Hs" in
      assert (Hs : E = product_build c (sort_args l)) by (vm_compute; reflexivity);
      let Hl := fresh "Hl" in
      eassert (Hl : sort_args l = _) by (sort_eval; reflexivity);
      rewrite Hl in Hs; clear Hl;
      lazymatch type of Hs with
      | _ = ?rhs => let v := eval vm_compute in rhs in change rhs with v in Hs
      end;
      rewrite Hs; clear Hs
    end
  end.

Ltac eval_closed E := let v := eval vm_compute in E in change E with v.

Ltac is_value x :=
  lazymatch x with
  | context [mul_expand _ _] => fail
  | context [mul _ _] => fail
  | context [neg _] => fail
  | context [div _ _] => fail
  | context [exp_ _] => fail
  | context [add _ _] => fail
  | context [sub _ _] => fail
  | context [Mul_ _] => fail
  | context [Add_ _] => fail
  | context [expand _] => fail
  | context [rewrite_exp _] => fail
  | _ => idtac
  end.

Ltac eval_products :=
  repeat match goal with
  | |- context [mul_expand ?x ?y] =>
      is_value x; is_value y; change (mul_expand x y) with (mul x y)
  | |- context [mul ?x ?y] => is_value x; is_value y; eval_product (mul x y)
  | |- context [neg ?x] => is_value x; eval_product (neg x)
  | |- context [exp_ ?x] => is_value x; eval_closed (exp_ x)
  end.

(** [2*pi*a*t] in canonical form, for a positive symbol [a] of any name. *)
Lemma argument_form n :
  mul (mul (mul two Pi) (Symbol n Positive)) (Symbol "t" Real)
  = Mul (Number (Integer 2) :: Pi ::
         (if ltb (Symbol "t" Real) (Symbol n Positive)
          then [Symbol "t" Real; Symbol n Positive]
          else [Symbol n Positive; Symbol "t" Real])).
Proof. vm_compute. reflexivity. Qed.

Lemma rewrite_exp_Mul args : rewrite_exp (Mul args) = Mul_ (map rewrite_exp args).
Proof. reflexivity. Qed.




(** The orchestrator after a cache miss, in the forward direction, given
    the ordered terms. *)
Lemma fourier_transform_miss_terms sy expr t f terms :
  as_ordered_terms
    (expand (let orig_expr := replace expr (Symbol (str t) Complex) (sym t) in
             if has_Func Cos orig_expr || has_Func Sin orig_expr
             then rewrite_exp orig_expr else orig_expr)) = terms ->
  fourier_transform_miss sy expr t f false
  = except_ValueError (replace expr (Symbol (str t) Complex) (sym t))
                      (sum_terms sy terms t f false Zero).
Proof. intros H. unfold fourier_transform_miss. cbv zeta in *. now rewrite H. Qed.








(** ** Products of undefined functions (C6) *)





(** ** What evaluation cannot introduce

    The evaluating constructors, [expand], [rewrite] and the ordered terms
    build their results from the leaves of their arguments: an expression
    free of a symbol and of undefined functions stays so. *)

Section Free.
Variable pat : Expr.















































End Free.




(** ** Constants (C2) *)





(** ** Failures of terms *)

(** The loop over the terms stops at the first term that fails. *)
Lemma sum_terms_first_failure sy t f (inverse : bool) pre :
  forall term post e result,
    Forall (fun x => exists r, fourier_term sy x t f inverse = Ok r) pre ->
    fourier_term sy term t f inverse = Raise e ->
    sum_terms sy (pre ++ term :: post)%list t f inverse result = Raise e.
Proof.
  induction pre as [|x pre IH]; intros term post e result Hpre Hterm;
    cbn [sum_terms app].
  - now rewrite Hterm.
  - inversion Hpre as [|? ? [r Hr] Hpre']; subst. rewrite Hr. cbn [bind].
    now apply IH.
Qed.

(** X1. When the first term that fails raises a [ValueError], the call fails
    with the one [ValueError] that names the expression as it was before
    rewriting and expansion; nothing of the partial sum is returned and the
    cache is left as it is. *)
Lemma term_failure_is_reported sy cache expr t f (inverse : bool)
      pre term post m :
  let t' := if inverse then f else t in
  let f' := if inverse then t else f in
  let orig_expr := replace expr (Symbol (str t') Complex) (sym t') in
  reachable sy cache ->
  as_ordered_terms
    (expand (if has_Func Cos orig_expr || has_Func Sin orig_expr
             then rewrite_exp orig_expr else orig_expr))
  = (pre ++ term :: post)%list ->
  Forall (fun x => exists r, fourier_term sy x t' f' inverse = Ok r) pre ->
  fourier_term sy term t' f' inverse = Raise (ValueError m) ->
  fourier_transform sy cache expr t f inverse
  = (Raise (ValueError (Could_not_compute orig_expr)), cache).
Proof.
  intros t' f' orig_expr Hc Hterms Hpre Hterm.
  assert (Hm : fourier_transform_miss sy expr t f inverse
               = Raise (ValueError (Could_not_compute orig_expr))).
  { unfold fourier_transform_miss.
    replace (if inverse then (f, t) else (t, f)) with (t', f')
      by (subst t' f'; now destruct inverse).
    fold orig_expr. rewrite Hterms.
    now rewrite (sum_terms_first_failure sy t' f' inverse pre term post
                   (ValueError m) Zero Hpre Hterm). }
  destruct (lookup (expr, t, f, inverse) cache) as [r|] eqn:Hhit.
  - pose proof (reachable_sound sy cache Hc _ _ _ _ _ Hhit) as Hr. congruence.
  - rewrite fourier_transform_absent by assumption. now rewrite Hm.
Qed.

Lemma term_failure_is_reported_witness :
  reachable bare_sympy []
  /\ fourier_term bare_sympy Example.v_of_2t_plus_x_plus_y
                  Example.t Example.f false
     = Raise (ValueError
                (Too_many_terms (add (add (mul two (sym Example.t)) Example.x)
                                     Example.y)))
  /\ fourier_transform bare_sympy [] Example.v_of_2t_plus_x_plus_y
                       Example.t Example.f false
     = (Raise (ValueError (Could_not_compute Example.v_of_2t_plus_x_plus_y)), []).
Proof.
  split; [apply reachable_empty|]. split; [reflexivity|].
  exact (term_failure_is_reported
           bare_sympy [] Example.v_of_2t_plus_x_plus_y Example.t Example.f false
           [] Example.v_of_2t_plus_x_plus_y [] _
           (reachable_empty _) eq_refl (Forall_nil _) eq_refl).
Defined.

(** * Further properties

    Properties of the functions beyond the claims: the failures of terms,
    the other rules of [fourier_term], the refusals of [fourier_function],
    [scale_shift], [factor_const] and the inverse direction. *)

(** X2. When the first term that fails raises an exception that is not a
    [ValueError] (an [IndexError] or a [TypeError], say; the parser's
    [SympifyError] is a [ValueError]), the call fails with that very
    exception: it is not turned into the error that names the expression.
    The cache is left as it is. *)
Theorem other_failure_is_not_wrapped sy cache expr t f (inverse : bool)
      pre term post e :
  let t' := if inverse then f else t in
  let f' := if inverse then t else f in
  let orig_expr := replace expr (Symbol (str t') Complex) (sym t') in
  reachable sy cache ->
  as_ordered_terms
    (expand (if has_Func Cos orig_expr || has_Func Sin orig_expr
             then rewrite_exp orig_expr else orig_expr))
  = (pre ++ term :: post)%list ->
  Forall (fun x => exists r, fourier_term sy x t' f' inverse = Ok r) pre ->
  fourier_term sy term t' f' inverse = Raise e ->
  is_ValueError e = false ->
  fourier_transform sy cache expr t f inverse = (Raise e, cache).
Proof.
  intros t' f' orig_expr Hc Hterms Hpre Hterm He.
  assert (Hm : fourier_transform_miss sy expr t f inverse = Raise e).
  { unfold fourier_transform_miss.
    replace (if inverse then (f, t) else (t, f)) with (t', f')
      by (subst t' f'; now destruct inverse).
    fold orig_expr. rewrite Hterms.
    rewrite (sum_terms_first_failure sy t' f' inverse pre term post
               e Zero Hpre Hterm).
    unfold except_ValueError. now rewrite He. }
  destruct (lookup (expr, t, f, inverse) cache) as [r|] eqn:Hhit.
  - pose proof (reachable_sound sy cache Hc _ _ _ _ _ Hhit) as Hr. congruence.
  - rewrite fourier_transform_absent by assumption. now rewrite Hm.
Qed.

Lemma other_failure_is_not_wrapped_witness :
  reachable bare_sympy []
  /\ fourier_term bare_sympy Example.v_of_x Example.t Example.f false
     = Raise IndexError
  /\ fourier_transform bare_sympy [] Example.v_of_x Example.t Example.f false
     = (Raise IndexError, []).
Proof.
  split; [apply reachable_empty|]. split; [reflexivity|].
  exact (other_failure_is_not_wrapped
           bare_sympy [] Example.v_of_x Example.t Example.f false
           [] Example.v_of_x [] IndexError
           (reachable_empty _) eq_refl (Forall_nil _) eq_refl eq_refl).
Defined.

(** ** Products of two factors

    [as_ordered_factors] puts the two factors of a product in one of the
    two orders; the loop of [fourier_term] over the factors does not depend
    on which. *)
Lemma as_ordered_factors_pair x y :
  as_ordered_factors (Mul [x; y]) = [x; y]
  \/ as_ordered_factors (Mul [x; y]) = [y; x].
Proof.
  unfold as_ordered_factors, sort_by. cbn [fold_left insert_by].
  destruct (sort_key_compare y x); auto.
Qed.

Ltac split_steps :=
  unfold split_factors; cbn [fold_left];
  repeat match goal with
  | H : has ?x ?t = _ |- context [has ?x ?t] => rewrite H; cbn [negb]
  end;
  rewrite ?mul_One_l.

Lemma split_factors_const_other k g t factors :
  factors = [k; g] \/ factors = [g; k] ->
  has k (sym t) = false ->
  has g (sym t) = true ->
  is_exp g = false ->
  split_factors factors t = (k, g, One).
Proof.
  intros Hf Hk Hg He.
  destruct g as [| | | | | | | | | | |[] ? | | |]; try discriminate He;
    destruct Hf as [-> | ->]; split_steps; reflexivity.
Qed.

Lemma split_factors_other_exp g A t factors :
  factors = [g; Func Exp A] \/ factors = [Func Exp A; g] ->
  has g (sym t) = true ->
  has (Func Exp A) (sym t) = true ->
  is_exp g = false ->
  split_factors factors t = (One, g, Func Exp A).
Proof.
  intros Hf Hg HE He.
  destruct g as [| | | | | | | | | | |[] ? | | |]; try discriminate He;
    destruct Hf as [-> | ->]; split_steps; reflexivity.
Qed.

Lemma Pow_symbol_two t : Pow_ (sym t) two = Pow (sym t) two.
Proof. destruct t. reflexivity. Qed.

Lemma has_pair x y pat args :
  args = [x; y] \/ args = [y; x] ->
  has y pat = true -> has (Mul args) pat = true.
Proof.
  intros [-> | ->] H; cbn [has existsb]; rewrite H; now rewrite ?orb_true_r.
Qed.

Lemma has_AppliedUndef_pair x y args :
  args = [x; y] \/ args = [y; x] ->
  has_AppliedUndef x = false -> has_AppliedUndef y = false ->
  has_AppliedUndef (Mul args) = false.
Proof.
  intros [-> | ->] Hx Hy; cbn [has_AppliedUndef existsb]; now rewrite Hx, Hy.
Qed.

Lemma as_ordered_factors_of_pair x y args :
  args = [x; y] \/ args = [y; x] ->
  as_ordered_factors (Mul args) = [x; y]
  \/ as_ordered_factors (Mul args) = [y; x].
Proof.
  intros [-> | ->]; [apply as_ordered_factors_pair|].
  destruct (as_ordered_factors_pair y x); auto.
Qed.

(** [fourier_term] on a product of a factor [k] without [t] and a factor
    [g] with [t] that is not an exponential: the rules see the constant
    [k] and the other factor [g]. *)
Lemma fourier_term_const_other sy k g t f (inverse : bool) args :
  args = [k; g] \/ args = [g; k] ->
  has_AppliedUndef k = false ->
  has_AppliedUndef g = false ->
  has k (sym t) = false ->
  has g (sym t) = true ->
  is_exp g = false ->
  is_One g = false ->
  fourier_term sy (Mul args) t f inverse
  = if expr_eqb g (sym t) then
      Ok (mul (mul (mul (mul k ImaginaryUnit) two) Pi)
              (Func DiracDelta [sym f; One]))
    else if expr_eqb g (Pow_ (sym t) two) then
      Ok (mul (mul k (Pow_ (mul (mul ImaginaryUnit two) Pi) two))
              (Func DiracDelta [sym f; two]))
    else
      let sf := if inverse then neg (sym f) else sym f in
      let punt := fourier_sympy sy (Mul args) t sf in
      if is_Pow_minus_one g then
        foo <- index (args_of g) 0 ;;
        if is_Add foo then
          foo1 <- index (args_of foo) 1 ;;
          if has foo1 (sym t) then
            let bar := div foo1 (sym t) in
            if negb (has bar (sym t)) && has bar ImaginaryUnit then
              foo0 <- index (args_of foo) 0 ;;
              let a :=
                div (neg (mul (mul (mul foo0 two) Pi) ImaginaryUnit)) bar in
              Ok (mul (mul k (exp_ (mul (neg a) sf)))
                      (Func Heaviside [mul sf (sign_ a)]))
            else punt
          else punt
        else punt
      else punt.
Proof.
  intros Ha Hku Hgu Hk Hg He H1. unfold fourier_term.
  cbn [fourier_term_depth]. rewrite (has_AppliedUndef_pair k g args Ha Hku Hgu).
  unfold fourier_term_rules. rewrite (has_pair k g _ args Ha Hg). cbn [negb].
  rewrite (split_factors_const_other k g t _
             (as_ordered_factors_of_pair k g args Ha) Hk Hg He).
  rewrite H1. reflexivity.
Qed.

(** X5. For a target variable [f] that is not a positive symbol, the
    product of a factor [k] without [t] and [t] goes to
    [k*I*2*pi*DiracDelta(f, 1)], and the product of [k] and [t**2] goes to
    [k*(I*2*pi)**2*DiracDelta(f, 2)], whichever way the two factors are
    ordered, and the same in both directions: these two rules use [f], not
    the negated [f] of the inverse direction. *)
Theorem power_of_t_goes_to_impulse_derivative sy k t f (inverse : bool) args :
  has_AppliedUndef k = false ->
  has k (sym t) = false ->
  is_positive (sym f) = false ->
  (args = [k; sym t] \/ args = [sym t; k] ->
   fourier_term sy (Mul args) t f inverse
   = Ok (mul (mul (mul (mul k ImaginaryUnit) two) Pi)
             (Func DiracDelta [sym f; One])))
  /\ (args = [k; Pow (sym t) two] \/ args = [Pow (sym t) two; k] ->
      fourier_term sy (Mul args) t f inverse
      = Ok (mul (mul k (Pow_ (mul (mul ImaginaryUnit two) Pi) two))
                (Func DiracDelta [sym f; two]))).
Proof.
  intros Hu Hk _. split; intros Ha.
  - rewrite (fourier_term_const_other sy k (sym t) t f inverse args Ha Hu);
      try reflexivity; try assumption.
    + now rewrite expr_eqb_refl.
    + apply has_self.
  - rewrite (fourier_term_const_other sy k (Pow (sym t) two) t f inverse args
               Ha Hu); try reflexivity; try assumption.
    + rewrite Pow_symbol_two, expr_eqb_refl. reflexivity.
    + cbn [has]. now rewrite has_self, orb_true_r.
Qed.

Lemma power_of_t_goes_to_impulse_derivative_witness :
  has_AppliedUndef Example.a = false
  /\ has Example.a (sym Example.t) = false
  /\ is_positive (sym Example.f) = false
  /\ fourier_term bare_sympy (mul Example.a (sym Example.t))
                  Example.t Example.f true
     = Ok (mul (mul (mul (mul Example.a ImaginaryUnit) two) Pi)
               (Func DiracDelta [sym Example.f; One]))
  /\ fourier_term bare_sympy (mul Example.a (Pow_ (sym Example.t) two))
                  Example.t Example.f false
     = Ok (mul (mul Example.a (Pow_ (mul (mul ImaginaryUnit two) Pi) two))
               (Func DiracDelta [sym Example.f; two])).
Proof.
  split; [reflexivity|]. split; [reflexivity|]. split; [reflexivity|]. split.
  - exact (proj1 (power_of_t_goes_to_impulse_derivative
                    bare_sympy Example.a Example.t Example.f true
                    [Example.a; sym Example.t] eq_refl eq_refl eq_refl)
                 (or_introl eq_refl)).
  - exact (proj2 (power_of_t_goes_to_impulse_derivative
                    bare_sympy Example.a Example.t Example.f false
                    [Example.a; Pow (sym Example.t) two] eq_refl eq_refl eq_refl)
                 (or_introl eq_refl)).
Defined.

(** X6. Beside an exponential, a factor that contains [t] and is not an
    exponential does not enter the result: when rule 4 applies to [exp(A)],
    the transform of [g*exp(A)] is the impulse that [exp(A)] alone goes to,
    whatever [g] is ([t], [Heaviside(t)], ...).  The target variable [f] is
    a real symbol, and the position [(A/t)/(I*2*pi)] of the impulse is real
    and free of [f]. *)
Theorem factor_beside_exponential_is_dropped sy g A t f (inverse : bool) args :
  let position := div (div A (sym t)) (mul (mul ImaginaryUnit two) Pi) in
  args = [g; Func Exp [A]] \/ args = [Func Exp [A]; g] ->
  has_AppliedUndef g = false ->
  has g (sym t) = true ->
  is_exp g = false ->
  has_AppliedUndef A = false ->
  has A (sym t) = true ->
  has (div A (sym t)) (sym t) = false ->
  has (div A (sym t)) ImaginaryUnit = true ->
  symbol_assumption f = Real ->
  real_valued position = true ->
  has position (sym f) = false ->
  fourier_term sy (Mul args) t f inverse
  = Ok (Func DiracDelta [sub (if inverse then neg (sym f) else sym f) position])
  /\ fourier_term sy (Mul args) t f inverse
     = fourier_term sy (Func Exp [A]) t f inverse.
Proof.
  intros position Ha Hgu Hg He HAu HA Hfoo HI _ _ _. subst position.
  assert (HE : has (Func Exp [A]) (sym t) = true).
  { cbn [has existsb]. rewrite HA. now rewrite orb_true_r. }
  assert (HEu : has_AppliedUndef (Func Exp [A]) = false).
  { cbn [has_AppliedUndef existsb]. now rewrite HAu. }
  rewrite (pure_exponential_rule sy A t f inverse HAu HA Hfoo HI).
  match goal with |- ?P /\ _ => assert (H : P); [|split; [exact H|exact H]] end.
  unfold fourier_term. cbn [fourier_term_depth].
  rewrite (has_AppliedUndef_pair g (Func Exp [A]) args Ha Hgu HEu).
  unfold fourier_term_rules. rewrite (has_pair g (Func Exp [A]) _ args Ha HE).
  cbn [negb].
  rewrite (split_factors_other_exp g [A] t _
             (as_ordered_factors_of_pair g (Func Exp [A]) args Ha) Hg HE He).
  rewrite andb_false_r. cbn [args_of index nth_error bind].
  rewrite Hfoo, HI. cbn [is_One negb andb]. now rewrite mul_One_l.
Qed.

Lemma factor_beside_exponential_is_dropped_witness :
  let A := Mul [Number (Integer 2); Pi; ImaginaryUnit; Example.a; sym Example.t] in
  has (sym Example.t) (sym Example.t) = true
  /\ div (div A (sym Example.t)) (mul (mul ImaginaryUnit two) Pi) = Example.a
  /\ real_valued Example.a = true
  /\ fourier_term bare_sympy (Mul [sym Example.t; Func Exp [A]])
                  Example.t Example.f false
     = Ok (Func DiracDelta [sub (sym Example.f) Example.a])
  /\ fourier_term bare_sympy (Func Exp [A]) Example.t Example.f false
     = Ok (Func DiracDelta [sub (sym Example.f) Example.a]).
Proof.
  intros A. split; [reflexivity|]. split; [reflexivity|]. split; [reflexivity|].
  pose proof (factor_beside_exponential_is_dropped
                bare_sympy (sym Example.t) A Example.t Example.f false
                [sym Example.t; Func Exp [A]]
                (or_introl eq_refl) eq_refl eq_refl eq_refl eq_refl eq_refl
                eq_refl eq_refl eq_refl eq_refl eq_refl) as [H1 H2].
  split; [exact H1|]. rewrite <- H2. exact H1.
Defined.

(** ** The two directions *)

Lemma lower_of_upper (c : ascii) : is_upper c = false -> lower (upper c) = c.
Proof.
  destruct c as [[] [] [] [] [] [] [] []]; intros H;
    (reflexivity || discriminate H).
Qed.

(** X7. A name that begins with a character of ASCII other than an
    upper-case letter comes back: [v(t)] goes to [V(f)], and
    [inverse_fourier_transform] takes [V(f)] to the simplified [v(t)].
    [sympify] reads the names of the two variables as symbols and [V(f)]
    and [v(t)] as undefined functions, which it does not for the names that
    SymPy binds: the dual of [s(t)] is written [S(f)], and is read as
    [f]. *)
Theorem dual_name_round_trip sy cache cache' c rest t f :
  is_ascii c = true ->
  is_upper c = false ->
  reachable sy cache ->
  reachable sy cache' ->
  reads_symbol sy (str f) ->
  reads_symbol sy (str t) ->
  reads_call sy (String (upper c) rest) (str f) ->
  reads_call sy (String c rest) (str t) ->
  fst (fourier_transform sy cache (AppliedUndef (String c rest) [sym t]) t f false)
  = Ok (AppliedUndef (String (upper c) rest) [sym f])
  /\ fst (inverse_fourier_transform
            sy cache' (AppliedUndef (String (upper c) rest) [sym f]) f t)
     = Ok (simplify sy (AppliedUndef (String c rest) [sym t])).
Proof.
  intros _ Hl Hc Hc' Hf Ht HV Hv. split.
  - rewrite (fourier_transform_dual sy cache c rest (sym t) t f false One Zero
               Hc (normalised_function_of_t _ t) (scale_shift_symbol sy t) Hf HV).
    cbn [is_Zero Zero]. now rewrite div_One_r.
  - unfold inverse_fourier_transform.
    pose proof (fourier_transform_dual
                  sy cache' (upper c) rest (sym f) t f true One Zero
                  Hc' (normalised_function_of_t _ f) (scale_shift_symbol sy f) Ht)
      as H.
    cbv zeta in H. rewrite (lower_of_upper c Hl) in H. specialize (H Hv).
    destruct (fourier_transform sy cache' _ t f true) as [r cache''].
    cbn [fst] in *. rewrite H. cbn [is_Zero Zero bind]. now rewrite div_One_r.
Qed.

Lemma dual_name_round_trip_witness :
  fst (fourier_transform bare_sympy [] (AppliedUndef "v" [sym Example.t])
                         Example.t Example.f false)
  = Ok (AppliedUndef "V" [sym Example.f])
  /\ fst (inverse_fourier_transform
            bare_sympy Example.cache_after_a (AppliedUndef "V" [sym Example.f])
            Example.f Example.t)
     = Ok (AppliedUndef "v" [sym Example.t]).
Proof.
  exact (dual_name_round_trip
           bare_sympy [] Example.cache_after_a "v"%char "" Example.t Example.f
           eq_refl eq_refl (reachable_empty _)
           (reachable_call _ _ _ _ _ _ (reachable_empty _))
           eq_refl eq_refl eq_refl eq_refl).
Defined.



(** ** Refusals of [fourier_function]

    Substitution of the twin of [t] leaves functions of [t] alone. *)
Lemma subs_symbol_twin t :
  subs (sym t) (Symbol (str t) Complex) (sym t) = sym t.
Proof.
  destruct t as [n a]. unfold sym, str. cbn [symbol_name symbol_assumption subs].
  now destruct (expr_eqb (Symbol n a) (Symbol n Complex)).
Qed.

Lemma subs_AppliedUndef name args old new :
  subs (AppliedUndef name args) old new
  = if expr_eqb (AppliedUndef name args) old then new
    else
      let args' := map (fun a => subs a old new) args in
      if list_eqb args' args then AppliedUndef name args
      else rebuild (AppliedUndef name args) args'.
Proof. reflexivity. Qed.

Lemma subs_Pow b e old new :
  subs (Pow b e) old new
  = if expr_eqb (Pow b e) old then new
    else
      let args' := [subs b old new; subs e old new] in
      if list_eqb args' [b; e] then Pow b e else rebuild (Pow b e) args'.
Proof. reflexivity. Qed.

Lemma subs_function_of_t name t :
  subs (AppliedUndef name [sym t]) (Symbol (str t) Complex) (sym t)
  = AppliedUndef name [sym t].
Proof.
  rewrite subs_AppliedUndef. cbn [expr_eqb map]. cbv zeta.
  now rewrite subs_symbol_twin, list_eqb_refl.
Qed.

Lemma subs_power_of_function name t m :
  subs (Pow (AppliedUndef name [sym t]) (Number m)) (Symbol (str t) Complex) (sym t)
  = Pow (AppliedUndef name [sym t]) (Number m).
Proof.
  rewrite subs_Pow. cbn [expr_eqb]. cbv zeta.
  rewrite subs_function_of_t.
  change (subs (Number m) (Symbol (str t) Complex) (sym t)) with (Number m).
  now rewrite list_eqb_refl.
Qed.

Lemma fourier_transform_raises sy cache expr t f (inverse : bool) e :
  reachable sy cache ->
  fourier_transform_miss sy expr t f inverse = Raise e ->
  fourier_transform sy cache expr t f inverse = (Raise e, cache).
Proof.
  intros Hc Hm.
  destruct (lookup (expr, t, f, inverse) cache) as [r|] eqn:Hhit.
  - pose proof (reachable_sound sy cache Hc _ _ _ _ _ Hhit) as Hr. congruence.
  - rewrite fourier_transform_absent by assumption. now rewrite Hm.
Qed.

Lemma replace_Pow b e old new :
  replace (Pow b e) old new
  = let x' :=
      if list_eqb [replace b old new; replace e old new] [b; e] then Pow b e
      else rebuild (Pow b e) [replace b old new; replace e old new] in
    if expr_eqb x' old then new else x'.
Proof. reflexivity. Qed.

(** The reciprocal of an undefined function of the source variable is
    normalised. *)
Lemma normalised_reciprocal name t :
  normalised (Pow (AppliedUndef name [sym t]) NegativeOne) t.
Proof.
  destruct (normalised_function_of_t name t) as (Hr & _).
  unfold normalised. split; [|destruct t; repeat split; reflexivity].
  rewrite replace_Pow, Hr. cbv zeta.
  change (replace NegativeOne (Symbol (str t) Complex) (sym t)) with NegativeOne.
  now rewrite list_eqb_refl.
Qed.

(** X8. A power of an undefined function of [t] is refused: the factor
    is not an undefined function itself, so it joins the rest, and the rest
    contains an undefined function.  [fourier_transform(1/v(t), t, f)]
    fails with the error that names [1/v(t)] and stores nothing. *)
Theorem power_of_function_is_refused sy cache name t f (inverse : bool) m :
  reads_symbol sy (str f) ->
  reads_symbol sy (str t) ->
  let v := AppliedUndef name [sym t] in
  fourier_term sy (Pow v (Number m)) t f inverse
  = Raise (ValueError (Cannot_compute (Pow v (Number m))))
  /\ (reachable sy cache ->
      fourier_transform sy cache (div One v) t f false
      = (Raise (ValueError (Could_not_compute (div One v))), cache)).
Proof.
  intros Hf Ht v.
  assert (Hv : has v (sym t) = true).
  { subst v. cbn [has existsb]. now rewrite has_self, orb_true_r. }
  assert (Hterm : forall inverse m,
            fourier_term sy (Pow v (Number m)) t f inverse
            = Raise (ValueError (Cannot_compute (Pow v (Number m))))).
  { clear inverse m. intros inverse m'. unfold fourier_term. cbn [fourier_term_depth has_AppliedUndef orb].
    unfold fourier_function, factor_const.
    cbn [has_AppliedUndef orb negb as_ordered_factors fold_left].
    assert (Hp : has (Pow v (Number m')) (sym t) = true).
    { cbn [has]. fold v. now rewrite Hv, !orb_true_r. }
    fold v. rewrite Hp. cbn [negb]. rewrite mul_One_l, Hf. cbn [bind is_AppliedUndef].
    rewrite Ht. cbn [bind]. subst v. rewrite subs_power_of_function.
    cbn [as_ordered_factors split_undefs is_AppliedUndef]. rewrite mul_One_l.
    cbn [bind has_AppliedUndef orb]. reflexivity. }
  split; [apply Hterm|]. intros Hc.
  apply fourier_transform_raises; [exact Hc|].
  assert (Hd : div One v = Pow v NegativeOne) by reflexivity.
  rewrite Hd.
  destruct (normalised_reciprocal name t) as (Hr & Hcos & Hsin & He).
  fold v in Hr, Hcos, Hsin, He.
  rewrite (fourier_transform_miss_single sy _ t f false (Pow v NegativeOne)).
  - cbv zeta. rewrite Hr. unfold NegativeOne. now rewrite Hterm.
  - cbv zeta. rewrite Hr, Hcos, Hsin. cbn [orb]. now rewrite He.
Qed.

Lemma power_of_function_is_refused_witness :
  fourier_term bare_sympy (Pow (AppliedUndef "v" [sym Example.t]) two)
               Example.t Example.f false
  = Raise (ValueError
             (Cannot_compute (Pow (AppliedUndef "v" [sym Example.t]) two)))
  /\ fourier_transform bare_sympy Example.cache_after_a
                       (div One (AppliedUndef "v" [sym Example.t]))
                       Example.t Example.f false
     = (Raise (ValueError
                 (Could_not_compute (div One (AppliedUndef "v" [sym Example.t])))),
        Example.cache_after_a).
Proof.
  pose proof (power_of_function_is_refused
                bare_sympy Example.cache_after_a "v" Example.t Example.f false
                (Integer 2) eq_refl eq_refl) as [H1 H2].
  split; [exact H1|].
  exact (H2 (reachable_call _ _ _ _ _ _ (reachable_empty _))).
Defined.

(** ** The one-sided exponential

    X11. The reciprocal of a sum [foo0 + foo1] whose second argument is
    [t] times something with [I] and without [t] goes to
    [exp(-a*sf)*Heaviside(sf*sign(a))], with [a = -(foo0*2*pi*I)/(foo1/t)]
    and [sf] the target variable, negated in the inverse direction.  Only
    the second argument of the sum is looked at for [t].  The target
    variable is a real symbol and the sign of [a] is known, one or minus
    one, so that the step is a step in [f] or in [-f]. *)
Theorem reciprocal_of_sum_goes_to_one_sided_exponential
        sy foo0 foo1 t f (inverse : bool) :
  has_AppliedUndef foo0 = false ->
  has_AppliedUndef foo1 = false ->
  has foo1 (sym t) = true ->
  has (div foo1 (sym t)) (sym t) = false ->
  has (div foo1 (sym t)) ImaginaryUnit = true ->
  let sf := if inverse then neg (sym f) else sym f in
  let a :=
    div (neg (mul (mul (mul foo0 two) Pi) ImaginaryUnit)) (div foo1 (sym t)) in
  symbol_assumption f = Real ->
  sign_ a = One \/ sign_ a = NegativeOne ->
  fourier_term sy (Pow (Add [foo0; foo1]) NegativeOne) t f inverse
  = Ok (mul (exp_ (mul (neg a) sf)) (Func Heaviside [mul sf (sign_ a)])).
Proof.
  intros H0 H1 Ht Hbar HI sf a _ _.
  set (g := Pow (Add [foo0; foo1]) NegativeOne).
  assert (Hu : has_AppliedUndef g = false).
  { subst g. cbn [has_AppliedUndef existsb NegativeOne]. now rewrite H0, H1. }
  assert (Hp : has g (sym t) = true).
  { subst g. cbn [has existsb]. rewrite Ht. now rewrite !orb_true_r. }
  assert (E1 : expr_eqb g (sym t) = false) by reflexivity.
  assert (E2 : expr_eqb g (Pow_ (sym t) two) = false)
    by (rewrite Pow_symbol_two; reflexivity).
  assert (Hfac : as_ordered_factors g = [g]) by reflexivity.
  assert (Hsplit : split_factors [g] t = (One, g, One)).
  { unfold split_factors. cbn [fold_left]. rewrite Hp. cbn [negb].
    rewrite mul_One_l. reflexivity. }
  assert (Hone : is_One g = false) by reflexivity.
  assert (Hpow : is_Pow_minus_one g = true) by reflexivity.
  assert (Hidx : index (args_of g) 0 = Ok (Add [foo0; foo1])) by reflexivity.
  clearbody g.
  unfold fourier_term. cbn [fourier_term_depth]. rewrite Hu.
  unfold fourier_term_rules. rewrite Hp, Hfac, Hsplit. cbn [negb].
  rewrite Hone. change (is_One One) with true.
  cbn [negb andb]. rewrite E1, E2, Hpow, Hidx.
  cbn [bind is_Add args_of index nth_error].
  rewrite Ht, Hbar, HI. cbn [negb andb bind]. fold sf.
  now rewrite mul_One_l.
Qed.

Lemma reciprocal_of_sum_goes_to_one_sided_exponential_witness :
  let foo1 := Mul [Number (Integer 2); Pi; ImaginaryUnit; sym Example.f] in
  has (div foo1 (sym Example.f)) ImaginaryUnit = true
  /\ sign_ (div (neg (mul (mul (mul Example.a two) Pi) ImaginaryUnit))
                (div foo1 (sym Example.f)))
     = NegativeOne
  /\ fourier_term bare_sympy (Pow (Add [Example.a; foo1]) NegativeOne)
                  Example.f Example.t true
     = Ok (mul (exp_ (neg (mul Example.a (sym Example.t))))
               (Func Heaviside [sym Example.t])).
Proof.
  intros foo1. split; [reflexivity|]. split; [reflexivity|].
  exact (reciprocal_of_sum_goes_to_one_sided_exponential
           bare_sympy Example.a foo1 Example.f Example.t true
           eq_refl eq_refl eq_refl eq_refl eq_refl eq_refl (or_intror eq_refl)).
Defined.

Lemma mul_undefined_pair m xs n ys :
  expr_eqb (AppliedUndef n ys) (AppliedUndef m xs) = false ->
  mul (AppliedUndef m xs) (AppliedUndef n ys)
  = Mul (if ltb (AppliedUndef n ys) (AppliedUndef m xs)
         then [AppliedUndef n ys; AppliedUndef m xs]
         else [AppliedUndef m xs; AppliedUndef n ys]).
Proof.
  intros H. unfold mul, Mul_. cbn [filter is_One negb].
  unfold mul_gather. cbn [flat_map Mul_args app fold_left mul_step powers coeff
                          ipow gather].
  rewrite H. cbn [andb].
  rewrite (product_expr_parts
             (mkProduct (Some (Integer 1)) 0
                        [(AppliedUndef m xs, One, Integer 1);
                         (AppliedUndef n ys, One, Integer 1)])
             (Integer 1) [AppliedUndef m xs; AppliedUndef n ys] eq_refl).
  unfold sort_args. cbn [fold_left insert_sorted].
  now destruct (ltb (AppliedUndef n ys) (AppliedUndef m xs)).
Qed.

Lemma subs_Mul args old new :
  subs (Mul args) old new
  = if expr_eqb (Mul args) old then new
    else
      let args' := map (fun a => subs a old new) args in
      if list_eqb args' args then Mul args else rebuild (Mul args) args'.
Proof. reflexivity. Qed.

(** X9. In a product of two undefined functions, one of [t] and one of
    something else that contains [t], the second is refused as a function
    "not of [t]", whichever way the two are ordered -- although alone it
    would be transformed, with its scale and shift.  The source variable
    [t] is a symbol without assumptions, or the argument of the second
    function contains no symbol that only prints like [t]. *)
Theorem function_of_other_argument_in_product_is_refused
        sy m n arg t f (inverse : bool) args :
  let x := AppliedUndef m [sym t] in
  let y := AppliedUndef n [arg] in
  args = [x; y] \/ args = [y; x] ->
  has arg (sym t) = true ->
  expr_eqb arg (sym t) = false ->
  symbol_assumption t = Complex \/ has arg (Symbol (str t) Complex) = false ->
  reads_symbol sy (str f) ->
  reads_symbol sy (str t) ->
  fourier_term sy (Mul args) t f inverse
  = Raise (ValueError (Weird_function y (sym t))).
Proof.
  intros x y Ha Harg Hne Hv Hf Ht.
  assert (Hx : has x (sym t) = true).
  { subst x. cbn [has existsb]. now rewrite has_self, orb_true_r. }
  assert (Hy : has y (sym t) = true).
  { subst y. cbn [has existsb]. now rewrite Harg, orb_true_r. }
  assert (Hyx : expr_eqb y x = false).
  { subst x y. rewrite expr_eqb_AppliedUndef. cbn [list_eqb].
    rewrite Hne. cbn [andb]. now rewrite andb_false_r. }
  assert (Hxy : expr_eqb x y = false).
  { destruct (expr_eqb x y) eqn:E; [|reflexivity].
    apply expr_eqb_eq in E. rewrite E, expr_eqb_refl in Hyx. discriminate. }
  assert (Hsx : subs x (Symbol (str t) Complex) (sym t) = x).
  { apply subs_function_of_t. }
  assert (Hsy : subs y (Symbol (str t) Complex) (sym t) = y).
  { apply subs_twin. destruct Hv as [Hv | Hv]; [now left|right].
    subst y. cbn [has existsb]. rewrite Hv. reflexivity. }
  assert (Hsplit : forall l, l = [x; y] \/ l = [y; x] ->
            split_undefs (as_ordered_factors (Mul l)) t One []
            = Raise (ValueError (Weird_function y (sym t)))).
  { intros l Hl.
    destruct (as_ordered_factors_of_pair x y l Hl) as [-> | ->];
      subst x y; cbn [split_undefs is_AppliedUndef args_of index nth_error bind app];
      rewrite ?expr_eqb_refl, ?Hne; cbn [negb]; rewrite ?Hne; reflexivity. }
  assert (Hrest : exists l, (l = [x; y] \/ l = [y; x])
                            /\ factor_const (Mul args) t = (One, Mul l)).
  { unfold factor_const.
    destruct (as_ordered_factors_of_pair x y args Ha) as [-> | ->];
      cbn [fold_left];
      repeat match goal with
      | H : has ?a ?b = _ |- context [has ?a ?b] => rewrite H; cbn [negb]
      end;
      rewrite mul_One_l; subst x y.
    - rewrite (mul_undefined_pair m [sym t] n [arg] Hyx).
      destruct (ltb _ _); eexists; split; try reflexivity; auto.
    - rewrite (mul_undefined_pair n [arg] m [sym t] Hxy).
      destruct (ltb _ _); eexists; split; try reflexivity; auto. }
  destruct Hrest as (l & Hl & Hfc).
  assert (Hu : has_AppliedUndef (Mul args) = true)
    by (destruct Ha as [-> | ->]; reflexivity).
  unfold fourier_term. cbn [fourier_term_depth]. rewrite Hu.
  unfold fourier_function. rewrite Hu. cbn [negb].
  rewrite Hfc, Hf. cbn [bind is_AppliedUndef]. rewrite Ht. cbn [bind].
  assert (Hsl : subs (Mul l) (Symbol (str t) Complex) (sym t) = Mul l).
  { rewrite subs_Mul. destruct Hl as [-> | ->]; cbn [map expr_eqb]; cbv zeta;
      rewrite Hsx, Hsy; now rewrite list_eqb_refl. }
  rewrite Hsl, (Hsplit l Hl). reflexivity.
Qed.

Lemma function_of_other_argument_in_product_is_refused_witness :
  let y := AppliedUndef "y" [mul two (sym Example.t)] in
  let u := mkSymbol "u" Complex in
  fourier_term bare_sympy (mul (AppliedUndef "v" [sym Example.t]) y)
               Example.t Example.f false
  = Raise (ValueError (Weird_function y (sym Example.t)))
  /\ fourier_term bare_sympy y Example.t Example.f false
     = Ok (div (AppliedUndef "Y" [div (sym Example.f) two]) two)
  /\ fourier_term bare_sympy
                  (mul (AppliedUndef "v" [sym u])
                       (AppliedUndef "y" [mul two (sym u)]))
                  u Example.f false
     = Raise (ValueError
                (Weird_function (AppliedUndef "y" [mul two (sym u)]) (sym u))).
Proof.
  intros y u. split; [|split; [reflexivity|]].
  - exact (function_of_other_argument_in_product_is_refused
             bare_sympy "v" "y" (mul two (sym Example.t)) Example.t Example.f false
             [AppliedUndef "v" [sym Example.t]; y]
             (or_introl eq_refl) eq_refl eq_refl (or_intror eq_refl)
             eq_refl eq_refl).
  - exact (function_of_other_argument_in_product_is_refused
             bare_sympy "v" "y" (mul two (sym u)) u Example.f false
             [AppliedUndef "v" [sym u]; AppliedUndef "y" [mul two (sym u)]]
             (or_introl eq_refl) eq_refl eq_refl (or_introl eq_refl)
             eq_refl eq_refl).
Defined.

(** X14. Only the first argument of an undefined function is read:
    [v(t, x, ...)] goes to [V(f)], the further arguments are dropped.  The
    name begins with a character of ASCII, and [sympify] reads the name of
    the target variable as a symbol and the new name applied to it as an
    undefined function, which it does not for the names that SymPy binds
    ([S], [N], [I], [E], ... and, in the inverse direction, the names of
    its functions, such as [gamma]). *)
Theorem further_arguments_are_dropped sy cache c rest args t f (inverse : bool) :
  let t' := if inverse then f else t in
  let f' := if inverse then t else f in
  let name' := String (if inverse then lower c else upper c) rest in
  is_ascii c = true ->
  reachable sy cache ->
  normalised (AppliedUndef (String c rest) (sym t' :: args)) t' ->
  reads_symbol sy (str f') ->
  reads_call sy name' (str f') ->
  fst (fourier_transform sy cache (AppliedUndef (String c rest) (sym t' :: args))
                         t f inverse)
  = Ok (AppliedUndef name' [sym f']).
Proof.
  intros t' f' name' _ Hc Hn Hf Hcall.
  rewrite (fourier_transform_reachable sy cache _ _ _ _ Hc).
  rewrite (fourier_transform_miss_undef sy _ _ t f inverse Hn). fold t' f'.
  rewrite fourier_term_undef by (apply has_argument, has_self).
  rewrite Hf. cbn [bind].
  rewrite (fourier_func_formula sy c rest (sym t') args t' f' inverse One Zero
             (scale_shift_symbol sy t') Hf Hcall).
  cbn [is_Zero Zero]. now rewrite div_One_r.
Qed.

Lemma further_arguments_are_dropped_witness :
  fst (fourier_transform bare_sympy []
         (AppliedUndef "v" [sym Example.t; Example.x; Example.y])
         Example.t Example.f false)
  = Ok (AppliedUndef "V" [sym Example.f]).
Proof.
  refine (further_arguments_are_dropped
            bare_sympy [] "v"%char "" [Example.x; Example.y]
            Example.t Example.f false eq_refl (reachable_empty _) _ eq_refl eq_refl).
  repeat split.
Defined.

(** ** Convolutions

    X16. Folding further pieces in gives an integral over the whole real
    line in the dummy variable of the last piece: [nu] (or [tau]) for the
    first, [nu_1], [nu_2], ... after it. *)

Theorem convolution_is_an_integral_in_the_last_dummy
        sy g init last m t f (inverse : bool) dummy result :
  (forall k, (k <= List.length init)%nat ->
             reads_symbol sy (dummy_name dummy (m + k))) ->
  Forall (fun p => exists r, g p t f inverse = Ok r) (init ++ [last])%list ->
  exists fn,
    convolve sy g (init ++ [last])%list m t f inverse dummy result
    = Ok (Integral fn
                   (Symbol (dummy_name dummy (m + List.length init)) Complex)
                   NegativeInfinity Infinity).
Proof.
  revert m result.
  induction init as [|p init IH]; intros m result Hread Hg; cbn [app] in *.
  - inversion Hg as [|? ? [r Hr] _]; subst.
    cbn [convolve List.length]. rewrite Nat.add_0_r.
    pose proof (Hread 0%nat (Nat.le_refl _)) as H0. rewrite Nat.add_0_r in H0.
    unfold reads_symbol, dummy_name in *. rewrite H0. cbn [bind]. rewrite Hr.
    cbn [bind]. eexists. reflexivity.
  - inversion Hg as [|? ? [r Hr] Hg']; subst.
    cbn [convolve List.length].
    pose proof (Hread 0%nat (Nat.le_0_l _)) as H0. rewrite Nat.add_0_r in H0.
    unfold reads_symbol, dummy_name in H0. rewrite H0. cbn [bind]. rewrite Hr.
    cbn [bind].
    destruct (IH (S m) (Integral
                          (mul (subs result (sym f)
                                     (sub (sym f) (Symbol (dummy_name dummy m) Complex)))
                               (subs r (sym f) (Symbol (dummy_name dummy m) Complex)))
                          (Symbol (dummy_name dummy m) Complex)
                          NegativeInfinity Infinity)) as [fn Hfn].
    + intros k Hk. replace (S m + k)%nat with (m + S k)%nat by lia.
      apply Hread. cbn [List.length]. lia.
    + exact Hg'.
    + exists fn. unfold dummy_name in *. rewrite Hfn.
      now replace (S m + List.length init)%nat with (m + S (List.length init))%nat
        by lia.
Qed.

Lemma convolution_is_an_integral_in_the_last_dummy_witness :
  exists fn,
    convolve bare_sympy (fourier_term bare_sympy)
             [AppliedUndef "y" [sym Example.t]; AppliedUndef "z" [sym Example.t]]
             0 Example.t Example.f false "nu" (AppliedUndef "V" [sym Example.f])
    = Ok (Integral fn (Symbol "nu_1" Complex) NegativeInfinity Infinity).
Proof.
  refine (convolution_is_an_integral_in_the_last_dummy
            bare_sympy (fourier_term bare_sympy)
            [AppliedUndef "y" [sym Example.t]] (AppliedUndef "z" [sym Example.t])
            0 Example.t Example.f false "nu" (AppliedUndef "V" [sym Example.f])
            (fun k _ => eq_refl) _).
  repeat (apply Forall_cons || apply Forall_nil); eexists; reflexivity.
Defined.

Lemma insert_by_length {A : Type} (cmp : A -> A -> comparison) x l :
  List.length (insert_by cmp x l) = S (List.length l).
Proof.
  induction l as [|y l IH]; cbn [insert_by List.length]; [reflexivity|].
  destruct (cmp x y); cbn [List.length]; now rewrite ?IH.
Qed.

Lemma sort_by_length {A : Type} (cmp : A -> A -> comparison) (l : list A) :
  List.length (sort_by cmp l) = List.length l.
Proof.
  unfold sort_by.
  assert (H : forall acc,
            List.length (fold_left (fun acc x => insert_by cmp x acc) l acc)
            = (List.length l + List.length acc)%nat).
  { induction l as [|x l IH]; intros acc; cbn [fold_left List.length];
      [reflexivity|].
    rewrite IH, insert_by_length. lia. }
  rewrite H. cbn [List.length]. lia.
Qed.

Lemma as_ordered_terms_nonempty arg t :
  has arg (sym t) = true -> as_ordered_terms arg <> [].
Proof.
  intros H. destruct arg; try discriminate.
  cbn [as_ordered_terms]. intros E.
  apply (f_equal (@List.length Expr)) in E. rewrite sort_by_length in E.
  destruct args; [|cbn [List.length] in E; discriminate E].
  cbn [has existsb] in H. rewrite orb_false_r in H.
  discriminate H.
Qed.

(** X19. [scale_shift] returns, or raises a [ValueError]: an argument
    that contains [t] has at least one ordered term, so [terms[0]] and
    [terms[1]] are never out of range. *)
Theorem scale_shift_fails_only_by_ValueError sy arg t :
  (exists scale shift, scale_shift sy arg t = Ok (scale, shift))
  \/ (exists m, scale_shift sy arg t = Raise (ValueError m)).
Proof.
  unfold scale_shift. destruct (has arg (sym t)) eqn:Ht; cbn [negb];
    [|right; eexists; reflexivity].
  pose proof (as_ordered_terms_nonempty arg t Ht) as Hne.
  destruct (as_ordered_terms arg) as [|x [|y [|z terms]]];
    [contradiction| | |];
    cbn [List.length Nat.ltb Nat.leb Nat.eqb index nth_error bind].
  - left. eexists. eexists. reflexivity.
  - destruct (is_constant sy (div x (sym t))); cbn [negb bind].
    + left. eexists. eexists. reflexivity.
    + right. eexists. reflexivity.
  - right. eexists. reflexivity.
Qed.

(** ** What evaluation cannot introduce, with undefined functions

    The lemmas on [free] again for [lacks]: an expression that does not
    contain a symbol stays so under the evaluating constructors, [expand],
    [rewrite] and the ordered terms, whether or not it contains undefined
    functions. *)

Section Lacks.
Variable pat : Expr.

Lemma lacks_make_mul args :
  forallb (lacks pat) args = true -> lacks pat (make_mul args) = true.
Proof.
  destruct args as [|x [|y args]]; simpl; try reflexivity.
  - now rewrite andb_true_r.
  - auto.
Qed.

Lemma lacks_as_coeff_Mul x :
  lacks pat x = true -> lacks pat (snd (as_coeff_Mul x)) = true.
Proof.
  destruct x; simpl; auto.
  destruct args as [|[] args]; simpl; auto.
  intros H. now apply lacks_make_mul.
Qed.

Lemma lacks_mul_coeff_term c x :
  lacks pat x = true -> lacks pat (mul_coeff_term c x) = true.
Proof.
  unfold mul_coeff_term. destruct (num_is_zero c); [reflexivity|].
  destruct x; simpl; try (destruct (num_is_one c); simpl; auto; intros ->; reflexivity).
  destruct args as [|[] args]; simpl;
    try (destruct (num_is_one c); simpl; auto).
  all: try (intros H; destruct (num_is_one (num_mul c n)); simpl; auto;
    now apply lacks_make_mul).
Qed.

Lemma lacks_collect s c l :
  lacks pat s = true -> lacks_terms pat l = true ->
  lacks_terms pat (collect s c l) = true.
Proof.
  unfold lacks_terms. intros Hs. induction l as [|[s' c'] l IH]; simpl.
  - now rewrite Hs.
  - intros H. apply andb_true_iff in H as [H1 H2].
    destruct (expr_eqb s s'); simpl; rewrite H1; simpl; auto.
Qed.

Lemma lacks_add_gather seq :
  forall coeff terms,
    forallb (lacks pat) seq = true -> lacks_terms pat terms = true ->
    lacks_terms pat (snd (add_gather seq coeff terms)) = true.
Proof.
  induction seq as [|o seq IH]; intros coeff terms Hs Ht; simpl in *; [exact Ht|].
  apply andb_true_iff in Hs as [Ho Hs].
  assert (Hgen : lacks_terms pat
            (snd (let '(c, s) := as_coeff_Mul o in
                  add_gather seq coeff (collect s c terms))) = true).
  { pose proof (lacks_as_coeff_Mul o Ho) as H.
    destruct (as_coeff_Mul o) as [c s]. simpl in H.
    apply IH; [exact Hs|]. now apply lacks_collect. }
  destruct o; try exact Hgen. now apply IH.
Qed.

Lemma lacks_insert_sorted x l :
  lacks pat x = true -> forallb (lacks pat) l = true ->
  forallb (lacks pat) (insert_sorted x l) = true.
Proof.
  intros Hx. induction l as [|y l IH]; simpl.
  - now rewrite Hx.
  - intros H. apply andb_true_iff in H as [H1 H2].
    destruct (ltb x y); simpl; rewrite ?Hx, ?H1; simpl; auto.
Qed.

Lemma lacks_sort_args l :
  forallb (lacks pat) l = true -> forallb (lacks pat) (sort_args l) = true.
Proof.
  unfold sort_args. 
  assert (H : forall acc, forallb (lacks pat) acc = true ->
              forallb (lacks pat) l = true ->
              forallb (lacks pat) (fold_left (fun acc x => insert_sorted x acc) l acc) = true).
  { induction l as [|x l IH]; intros acc Ha Hl; simpl in *; [exact Ha|].
    apply andb_true_iff in Hl as [Hx Hl].
    apply IH; [|exact Hl]. now apply lacks_insert_sorted. }
  now apply H.
Qed.

Lemma lacks_Add_args x :
  lacks pat x = true -> forallb (lacks pat) (Add_args x) = true.
Proof. destruct x; simpl; intros H; rewrite ?H; auto. Qed.

Lemma lacks_Mul_args x :
  lacks pat x = true -> forallb (lacks pat) (Mul_args x) = true.
Proof. destruct x; simpl; intros H; rewrite ?H; auto. Qed.

Lemma lacks_flat_map (f : Expr -> list Expr) l :
  (forall x, lacks pat x = true -> forallb (lacks pat) (f x) = true) ->
  forallb (lacks pat) l = true -> forallb (lacks pat) (flat_map f l) = true.
Proof.
  intros Hf. induction l as [|x l IH]; simpl; [reflexivity|].
  intros H. apply andb_true_iff in H as [H1 H2].
  rewrite forallb_app, (Hf _ H1). simpl. auto.
Qed.

Lemma lacks_map (f : Expr -> Expr) l :
  (forall x, lacks pat x = true -> lacks pat (f x) = true) ->
  forallb (lacks pat) l = true -> forallb (lacks pat) (map f l) = true.
Proof.
  intros Hf. induction l as [|x l IH]; simpl; [reflexivity|].
  intros H. apply andb_true_iff in H as [H1 H2]. now rewrite (Hf _ H1), IH.
Qed.

Lemma lacks_terms_rebuild (g : Expr * number -> bool) terms :
  lacks_terms pat terms = true ->
  forallb (lacks pat)
          (map (fun '(s, c) => mul_coeff_term c s) (filter g terms)) = true.
Proof.
  unfold lacks_terms. induction terms as [|[s c] terms IH]; simpl; [reflexivity|].
  intros H. apply andb_true_iff in H as [H1 H2].
  destruct (g (s, c)); simpl; auto. now rewrite lacks_mul_coeff_term, IH.
Qed.

Lemma lacks_add_flatten seq :
  forallb (lacks pat) seq = true -> lacks pat (add_flatten seq) = true.
Proof.
  intros Hs. unfold add_flatten.
  pose proof (lacks_add_gather (flat_map Add_args seq) (Integer 0) []
                (lacks_flat_map _ _ lacks_Add_args Hs) eq_refl) as Hg.
  destruct (add_gather (flat_map Add_args seq) (Integer 0) []) as [coeff terms].
  simpl in Hg.
  pose proof (lacks_sort_args _ (lacks_terms_rebuild
                (fun '(_, c) => negb (num_is_zero c)) terms Hg)) as Hn.
  set (newseq := sort_args _) in *.
  assert (Hn' : forallb (lacks pat)
                  (if num_is_zero coeff then newseq else Number coeff :: newseq)
                = true) by (destruct (num_is_zero coeff); simpl; auto).
  destruct (if num_is_zero coeff then newseq else Number coeff :: newseq)
    as [|x [|y l]]; simpl in *; auto.
  now rewrite andb_true_r in Hn'.
Qed.

Lemma lacks_filter (g : Expr -> bool) l :
  forallb (lacks pat) l = true -> forallb (lacks pat) (filter g l) = true.
Proof.
  induction l as [|x l IH]; simpl; [reflexivity|].
  intros H. apply andb_true_iff in H as [H1 H2].
  destruct (g x); simpl; rewrite ?H1; auto.
Qed.

Lemma lacks_Add_ args :
  forallb (lacks pat) args = true -> lacks pat (Add_ args) = true.
Proof.
  intros H. unfold Add_.
  pose proof (lacks_filter (fun a => negb (is_Zero a)) args H) as Hf.
  destruct (filter _ args) as [|x [|y l]] eqn:E; [reflexivity| |].
  - simpl in Hf. now rewrite andb_true_r in Hf.
  - now apply lacks_add_flatten.
Qed.

Lemma lacks_gather b k c l :
  lacks pat b = true -> lacks pat k = true -> lacks_powers pat l = true ->
  lacks_powers pat (gather b k c l) = true.
Proof.
  unfold lacks_powers. intros Hb Hk. induction l as [|[[b' k'] c'] l IH]; simpl.
  - now rewrite Hb, Hk.
  - intros H. apply andb_true_iff in H as [H1 H2].
    destruct (expr_eqb b b' && expr_eqb k k'); simpl; rewrite H1; simpl; auto.
Qed.

Lemma lacks_gather_exponent (p : product) b e :
  lacks pat b = true -> lacks pat e = true ->
  lacks_powers pat (powers p) = true ->
  lacks_powers pat
    (powers (let '(c, k) := as_coeff_Mul e in
             mkProduct (coeff p) (ipow p) (gather b k c (powers p)))) = true.
Proof.
  intros Hb He Hp. pose proof (lacks_as_coeff_Mul e He) as H.
  destruct (as_coeff_Mul e) as [c k]. simpl in *. now apply lacks_gather.
Qed.

Lemma lacks_mul_step p o :
  lacks pat o = true -> lacks_powers pat (powers p) = true ->
  lacks_powers pat (powers (mul_step p o)) = true.
Proof.
  intros Ho Hp.
  assert (Hdefault :
            lacks_powers pat
              (powers (mkProduct (coeff p) (ipow p)
                                 (gather o One (Integer 1) (powers p)))) = true)
    by (simpl; now apply lacks_gather).
  destruct o; try exact Hdefault; try exact Hp.
  - (* Pow *)
    simpl in Ho. apply andb_true_iff in Ho as [Hb He].
    destruct o1; try (now apply lacks_gather_exponent).
    destruct o2 as [[]| | | | | | | | | | | | | |];
      try (now apply (lacks_gather_exponent p ImaginaryUnit _ eq_refl)).
    exact Hp.
  - (* Func *)
    destruct h; try exact Hdefault.
    destruct args as [|x [|y args]]; try exact Hdefault.
    simpl in Ho. rewrite andb_true_r in Ho.
    now apply (lacks_gather_exponent p Exp1 x eq_refl).
Qed.

Lemma lacks_mul_gather seq :
  forallb (lacks pat) seq = true ->
  lacks_powers pat (powers (mul_gather seq)) = true.
Proof.
  intros Hs. unfold mul_gather.
  pose proof (lacks_flat_map _ _ lacks_Mul_args Hs) as Hf.
  assert (H : forall l p,
             forallb (lacks pat) l = true ->
             lacks_powers pat (powers p) = true ->
             lacks_powers pat (powers (fold_left mul_step l p)) = true).
  { induction l as [|o l IH]; intros p Hl Hp; simpl in *; [exact Hp|].
    apply andb_true_iff in Hl as [Ho Hl]. apply IH; [exact Hl|].
    now apply lacks_mul_step. }
  now apply H.
Qed.

Lemma lacks_exp_ x : lacks pat x = true -> lacks pat (exp_ x) = true.
Proof.
  intros H. unfold exp_. destruct (is_Zero x), (is_One x); simpl; rewrite ?H; auto.
Qed.

Lemma lacks_power_expr pw :
  lacks pat (fst (fst pw)) && lacks pat (snd (fst pw)) = true ->
  lacks pat (power_expr pw) = true.
Proof.
  destruct pw as [[b k] c]. simpl. intros H. apply andb_true_iff in H as [Hb Hk].
  pose proof (lacks_mul_coeff_term c k Hk) as He.
  destruct (is_One (mul_coeff_term c k)); [exact Hb|].
  destruct b; simpl in *; rewrite ?He, ?Hb; auto using lacks_exp_.
Qed.

Lemma lacks_powers_rebuild (g : power -> bool) l :
  lacks_powers pat l = true ->
  forallb (lacks pat) (map power_expr (filter g l)) = true.
Proof.
  unfold lacks_powers. induction l as [|pw l IH]; simpl; [reflexivity|].
  intros H. apply andb_true_iff in H as [H1 H2].
  destruct (g pw); simpl; auto. now rewrite lacks_power_expr, IH.
Qed.

Lemma lacks_product_expr p :
  lacks_powers pat (powers p) = true -> lacks pat (product_expr p) = true.
Proof.
  intros Hp. unfold product_expr. destruct (coeff p) as [c0|]; [|reflexivity].
  set (i := ipow p mod 4).
  set (c := if (i =? 2) || (i =? 3) then num_neg c0 else c0).
  set (unit := if (i =? 1) || (i =? 3) then [ImaginaryUnit] else []).
  assert (Hu : forallb (lacks pat) unit = true)
    by (subst unit; destruct ((i =? 1) || (i =? 3)); reflexivity).
  pose proof (lacks_powers_rebuild
                (fun '(_, _, e) => negb (num_is_zero e)) (powers p) Hp) as Hr.
  assert (Hc : forallb (lacks pat)
                 (sort_args (unit ++ map power_expr
                    (filter (fun '(_, _, e) => negb (num_is_zero e)) (powers p))))
               = true)
    by (apply lacks_sort_args; rewrite forallb_app; apply andb_true_iff;
        split; [exact Hu | exact Hr]).
  destruct (num_is_zero c); [reflexivity|].
  destruct (sort_args _) as [|x l]; [reflexivity|].
  assert (Hgen : lacks pat (if num_is_one c then make_mul (x :: l)
                           else Mul (Number c :: x :: l)) = true).
  { destruct (num_is_one c); [now apply lacks_make_mul | exact Hc]. }
  destruct x; try exact Hgen.
  destruct l; try exact Hgen.
  simpl in Hc. rewrite andb_true_r in Hc.
  destruct (num_is_one c); [exact Hc|].
  apply lacks_add_flatten. apply lacks_map; [|exact Hc].
  intros y. apply lacks_mul_coeff_term.
Qed.

Lemma lacks_Mul_ args :
  forallb (lacks pat) args = true -> lacks pat (Mul_ args) = true.
Proof.
  intros H. unfold Mul_.
  pose proof (lacks_filter (fun a => negb (is_One a)) args H) as Hf.
  destruct (filter _ args) as [|x [|y l]] eqn:E; [reflexivity| |].
  - simpl in Hf. now rewrite andb_true_r in Hf.
  - now apply lacks_product_expr, lacks_mul_gather.
Qed.

Lemma lacks_product_pow p n :
  lacks_powers pat (powers p) = true ->
  lacks_powers pat (powers (product_pow p n)) = true.
Proof.
  unfold lacks_powers. simpl. induction (powers p) as [|[[b k] c] l IH]; simpl;
    [reflexivity|].
  intros H. apply andb_true_iff in H as [H1 H2]. now rewrite H1, IH.
Qed.

Lemma lacks_Pow_ b e :
  lacks pat b = true -> lacks pat e = true -> lacks pat (Pow_ b e) = true.
Proof.
  intros Hb He.
  assert (Hgen : lacks pat (match b with
                           | Exp1 => exp_ e
                           | Number (Integer 1) => One
                           | _ => Pow b e
                           end) = true).
  { destruct b as [[[| [] |]| |]| | | | | | | | | | | | | |]; simpl in *;
      rewrite ?Hb, ?He; auto using lacks_exp_. }
  assert (Hint : forall n, lacks pat (match b with
                           | Add _ => Pow b (Number (Integer n))
                           | _ => product_expr (product_pow (mul_gather [b]) n)
                           end) = true).
  { intros n.
    assert (lacks pat (product_expr (product_pow (mul_gather [b]) n)) = true).
    { apply lacks_product_expr, lacks_product_pow, lacks_mul_gather. simpl.
      now rewrite Hb. }
    destruct b; try assumption. simpl in *. now rewrite Hb. }
  unfold Pow_. destruct e as [[z| |]| | | | | | | | | | | | | |]; try exact Hgen.
  destruct z as [|q|q]; [reflexivity| |apply Hint].
  destruct q; try apply Hint. exact Hb.
Qed.

Lemma lacks_add x y :
  lacks pat x = true -> lacks pat y = true -> lacks pat (add x y) = true.
Proof. intros Hx Hy. apply lacks_Add_. simpl. now rewrite Hx, Hy. Qed.

Lemma lacks_mul x y :
  lacks pat x = true -> lacks pat y = true -> lacks pat (mul x y) = true.
Proof. intros Hx Hy. apply lacks_Mul_. simpl. now rewrite Hx, Hy. Qed.

Lemma lacks_neg x : lacks pat x = true -> lacks pat (neg x) = true.
Proof. intros Hx. apply lacks_Mul_. simpl. now rewrite Hx. Qed.

Lemma lacks_sub x y :
  lacks pat x = true -> lacks pat y = true -> lacks pat (sub x y) = true.
Proof. intros Hx Hy. apply lacks_Add_. simpl. now rewrite Hx, lacks_neg. Qed.

Lemma lacks_div x y :
  lacks pat x = true -> lacks pat y = true -> lacks pat (div x y) = true.
Proof.
  intros Hx Hy. unfold div. apply lacks_Mul_. cbn [forallb].
  now rewrite Hx, (lacks_Pow_ y NegativeOne Hy eq_refl).
Qed.

Lemma lacks_Func_single h x :
  lacks pat x = true -> lacks pat (Func h [x]) = true.
Proof. intros H. cbn [lacks forallb]. now rewrite H. Qed.

Lemma lacks_Abs_term x : lacks pat x = true -> lacks pat (Abs_term x) = true.
Proof.
  induction x as [| | | | | | | |b IHb e IHe| | | | | |]; intros Hx;
    cbn [Abs_term];
    try (destruct (is_positive _); [exact Hx | now apply lacks_Func_single]);
    try reflexivity.
  assert (Hgen : lacks pat (Func Abs [Pow b e]) = true)
    by now apply lacks_Func_single.
  cbn [lacks] in Hx. apply andb_true_iff in Hx as [Hb He].
  destruct e as [[z| |]| | | | | | | | | | | | | |]; try exact Hgen.
  destruct (is_real b); [|exact Hgen].
  destruct (Z.even z); [cbn [lacks]; now rewrite Hb|].
  apply lacks_Pow_; [now apply IHb | reflexivity].
Qed.

Lemma lacks_Abs_ x : lacks pat x = true -> lacks pat (Abs_ x) = true.
Proof.
  intros Hx. destruct x; try (now apply lacks_Abs_term).
  simpl in Hx. unfold Abs_.
  assert (Hk : forallb (lacks pat)
                 (filter (fun a => negb (is_Abs a)) (map Abs_term args)) = true).
  { apply lacks_filter. apply lacks_map; [|exact Hx].
    apply lacks_Abs_term. }
  assert (Hu : forallb (lacks pat)
                 (filter (fun a => is_Abs (Abs_term a)) args) = true)
    by now apply lacks_filter.
  destruct (filter (fun a => is_Abs (Abs_term a)) args) as [|u us] eqn:E.
  - now apply lacks_Mul_.
  - apply lacks_Mul_. cbn [forallb]. rewrite (lacks_Mul_ _ Hk).
    cbn [lacks forallb]. now rewrite (lacks_Mul_ _ Hu).
Qed.

Lemma lacks_sign_term x : lacks pat x = true -> lacks pat (sign_term x) = true.
Proof.
  destruct x; intros Hx; cbn [sign_term];
    try (destruct (is_positive _); [reflexivity | now apply lacks_Func_single]);
    reflexivity.
Qed.

Lemma lacks_sign_ x : lacks pat x = true -> lacks pat (sign_ x) = true.
Proof.
  intros Hx. destruct x; try (now apply lacks_sign_term).
  simpl in Hx. unfold sign_.
  assert (Hk : forallb (lacks pat)
                 (filter (fun a => negb (is_sign a)) (map sign_term args)) = true).
  { apply lacks_filter. apply lacks_map; [|exact Hx].
    apply lacks_sign_term. }
  assert (Hu : forallb (lacks pat)
                 (filter (fun a => is_sign (sign_term a)) args) = true)
    by now apply lacks_filter.
  destruct (filter (fun a => is_sign (sign_term a)) args) as [|u us] eqn:E.
  - now apply lacks_Mul_.
  - apply lacks_Mul_. cbn [forallb]. rewrite (lacks_Mul_ _ Hk).
    cbn [lacks forallb]. now rewrite (lacks_Mul_ _ Hu).
Qed.

Lemma lacks_apply_Func h args :
  forallb (lacks pat) args = true -> lacks pat (apply_Func h args) = true.
Proof.
  intros H.
  assert (Hgen : lacks pat (Func h args) = true) by exact H.
  destruct h; destruct args as [|x [|y args]]; try exact Hgen;
    simpl in H; rewrite andb_true_r in H; simpl.
  - now apply lacks_exp_.
  - destruct (is_Zero x); [reflexivity | exact Hgen].
  - destruct (is_Zero x); [reflexivity | exact Hgen].
  - now apply lacks_Abs_.
  - now apply lacks_sign_.
Qed.

Lemma lacks_mul_expand x y :
  lacks pat x = true -> lacks pat y = true -> lacks pat (mul_expand x y) = true.
Proof.
  intros Hx Hy.
  assert (Hdist : lacks pat
            (Add_ (flat_map (fun a => map (fun b => Mul_ [a; b]) (Add_args y))
                            (Add_args x))) = true).
  { apply lacks_Add_. apply lacks_flat_map; [|now apply lacks_Add_args].
    intros a Ha. apply lacks_map; [|now apply lacks_Add_args].
    intros b Hb. apply lacks_Mul_. cbn [forallb]. now rewrite Ha, Hb. }
  assert (Hmul : lacks pat (Mul_ [x; y]) = true)
    by (apply lacks_Mul_; cbn [forallb]; now rewrite Hx, Hy).
  unfold mul_expand. destruct x; try exact Hdist; destruct y; assumption.
Qed.

Lemma lacks_pow_expand x n :
  lacks pat x = true -> lacks pat (pow_expand x n) = true.
Proof.
  intros Hx. induction n as [|n IH]; [reflexivity|].
  cbn [pow_expand]. destruct n; [exact Hx|]. now apply lacks_mul_expand.
Qed.

Lemma lacks_map_Forall (f : Expr -> Expr) args :
  Forall (fun a => lacks pat a = true -> lacks pat (f a) = true) args ->
  forallb (lacks pat) args = true -> forallb (lacks pat) (map f args) = true.
Proof.
  induction 1 as [|a args Ha _ IH]; simpl; [reflexivity|].
  intros H. apply andb_true_iff in H as [H1 H2]. now rewrite Ha, IH.
Qed.

Lemma lacks_fold_mul_expand l :
  forall acc, lacks pat acc = true -> forallb (lacks pat) l = true ->
              lacks pat (fold_left mul_expand l acc) = true.
Proof.
  induction l as [|x l IH]; intros acc Ha Hl; simpl in *; [exact Ha|].
  apply andb_true_iff in Hl as [Hx Hl]. apply IH; [|exact Hl].
  now apply lacks_mul_expand.
Qed.

Lemma lacks_expand x : lacks pat x = true -> lacks pat (expand x) = true.
Proof.
  induction x using Expr_nested_ind; intros Hx; try exact Hx.
  - (* Pow *)
    cbn [lacks] in Hx. apply andb_true_iff in Hx as [Hb He].
    specialize (IHx1 Hb). specialize (IHx2 He). cbn [expand].
    assert (Hgen : lacks pat (Pow_ (expand x1) (expand x2)) = true)
      by now apply lacks_Pow_.
    destruct (expand x2) as [[z| |]| | | | | | | | | |es| | | |] eqn:E2;
      try exact Hgen.
    + destruct (expand x1) eqn:E1; try exact Hgen.
      destruct (1 <? z); [now apply lacks_pow_expand|].
      destruct (z <? -1); [|exact Hgen].
      apply lacks_Pow_; [now apply lacks_pow_expand | reflexivity].
    + assert (Hsplit : lacks pat (Mul_ (map (Pow_ (expand x1)) es)) = true).
      { apply lacks_Mul_. apply lacks_map; [|exact IHx2].
        intros e. now apply lacks_Pow_. }
      destruct (expand x1); exact Hsplit.
  - (* Mul *)
    cbn [expand]. apply lacks_fold_mul_expand; [reflexivity|].
    now apply lacks_map_Forall.
  - (* Add *)
    cbn [expand]. apply lacks_Add_. now apply lacks_map_Forall.
  - (* Func *)
    assert (Hgen : lacks pat (apply_Func h (map expand args)) = true)
      by (apply lacks_apply_Func; now apply lacks_map_Forall).
    destruct h; try exact Hgen.
    destruct args as [|e [|e' args]]; try exact Hgen.
    cbn [expand]. cbn [lacks forallb] in Hx. rewrite andb_true_r in Hx.
    inversion H as [|? ? He _]; subst. specialize (He Hx).
    destruct (expand e) eqn:E; try (now apply lacks_exp_).
    apply lacks_Mul_. apply lacks_map; [|exact He]. apply lacks_exp_.
  - (* AppliedUndef *)
    cbn [expand lacks] in *. now apply lacks_map_Forall.
  - (* Integral *)
    cbn [lacks] in Hx. apply andb_true_iff in Hx as [Hx H4].
    apply andb_true_iff in Hx as [Hx H3].
    apply andb_true_iff in Hx as [H1 H2].
    specialize (IHx1 H1). cbn [expand].
    destruct (expand x1) eqn:E;
      try (cbn [lacks] in *; now rewrite ?IHx1, H2, H3, H4).
    apply lacks_Add_. apply lacks_map; [|exact IHx1].
    intros i Hi. cbn [lacks]. now rewrite Hi, H2, H3, H4.
Qed.

Lemma lacks_rewrite_exp x : lacks pat x = true -> lacks pat (rewrite_exp x) = true.
Proof.
  induction x using Expr_nested_ind; intros Hx; try exact Hx.
  - cbn [lacks] in Hx. apply andb_true_iff in Hx as [Hb He].
    cbn [rewrite_exp]. apply lacks_Pow_; auto.
  - cbn [rewrite_exp]. apply lacks_Mul_. now apply lacks_map_Forall.
  - cbn [rewrite_exp]. apply lacks_Add_. now apply lacks_map_Forall.
  - assert (Hgen : lacks pat (apply_Func h (map rewrite_exp args)) = true)
      by (apply lacks_apply_Func; now apply lacks_map_Forall).
    destruct h; try exact Hgen;
      destruct args as [|a [|a' args]]; try exact Hgen;
      cbn [rewrite_exp]; cbn [lacks forallb] in Hx; rewrite andb_true_r in Hx;
      inversion H as [|? ? Ha _]; subst; specialize (Ha Hx).
    + apply lacks_div; [|reflexivity].
      apply lacks_add; apply lacks_exp_, lacks_mul; auto using lacks_neg.
    + apply lacks_div; [|reflexivity].
      apply lacks_sub; apply lacks_exp_, lacks_mul; auto using lacks_neg.
  - cbn [rewrite_exp lacks] in *. now apply lacks_map_Forall.
  - cbn [lacks] in Hx. apply andb_true_iff in Hx as [Hx H4].
    apply andb_true_iff in Hx as [Hx H3].
    apply andb_true_iff in Hx as [H1 H2].
    cbn [rewrite_exp lacks]. now rewrite IHx1, IHx2, IHx3, IHx4.
  - cbn [lacks] in Hx. apply andb_true_iff in Hx as [Hx H3].
    apply andb_true_iff in Hx as [H1 H2].
    cbn [rewrite_exp lacks]. now rewrite IHx1, IHx2, IHx3.
Qed.

Lemma lacks_insert_by (cmp : Expr -> Expr -> comparison) x l :
  lacks pat x = true -> forallb (lacks pat) l = true ->
  forallb (lacks pat) (insert_by cmp x l) = true.
Proof.
  intros Hx. induction l as [|y l IH]; simpl.
  - now rewrite Hx.
  - intros H. apply andb_true_iff in H as [H1 H2].
    destruct (cmp x y); simpl; rewrite ?Hx, ?H1; simpl; auto.
Qed.

Lemma lacks_sort_by (cmp : Expr -> Expr -> comparison) l :
  forallb (lacks pat) l = true -> forallb (lacks pat) (sort_by cmp l) = true.
Proof.
  unfold sort_by.
  assert (H : forall acc, forallb (lacks pat) acc = true ->
              forallb (lacks pat) l = true ->
              forallb (lacks pat)
                (fold_left (fun acc x => insert_by cmp x acc) l acc) = true).
  { induction l as [|x l IH]; intros acc Ha Hl; simpl in *; [exact Ha|].
    apply andb_true_iff in Hl as [Hx Hl].
    apply IH; [|exact Hl]. now apply lacks_insert_by. }
  now apply H.
Qed.

Lemma lacks_as_ordered_terms x :
  lacks pat x = true -> forallb (lacks pat) (as_ordered_terms x) = true.
Proof.
  intros Hx.
  assert (Hgen : forallb (lacks pat) [x] = true)
    by (cbn [forallb]; now rewrite Hx).
  destruct x; try exact Hgen. cbn [as_ordered_terms]. now apply lacks_sort_by.
Qed.

End Lacks.

Lemma lacks_args_spec pat args :
  Forall (fun x => lacks pat x = true <-> has x pat = false) args ->
  forallb (lacks pat) args = true
  <-> existsb (fun a => has a pat) args = false.
Proof.
  induction 1 as [|x args Hx _ IH]; simpl; [tauto|].
  rewrite andb_true_iff, !orb_false_iff, Hx, IH. tauto.
Qed.

(** For a symbol [pat], [lacks pat x] says that [x] does not contain
    [pat]. *)
Lemma lacks_spec name a x :
  lacks (Symbol name a) x = true <-> has x (Symbol name a) = false.
Proof.
  induction x using Expr_nested_ind;
    try (cbn; split; reflexivity).
  - cbn [lacks has]. now rewrite negb_true_iff, orb_false_r.
  - cbn [lacks has expr_eqb orb].
    rewrite andb_true_iff, !orb_false_iff, IHx1, IHx2. tauto.
  - cbn [lacks has expr_eqb orb]. now apply lacks_args_spec.
  - cbn [lacks has expr_eqb orb]. now apply lacks_args_spec.
  - cbn [lacks has expr_eqb orb]. now apply lacks_args_spec.
  - cbn [lacks has expr_eqb orb]. now apply lacks_args_spec.
  - cbn [lacks has expr_eqb orb].
    rewrite !andb_true_iff, !orb_false_iff, IHx1, IHx2, IHx3, IHx4. tauto.
  - cbn [lacks has expr_eqb orb].
    rewrite !andb_true_iff, !orb_false_iff, IHx1, IHx2, IHx3. tauto.
Qed.

Lemma lacks_Forall pat (l : list Expr) :
  forallb (lacks pat) l = true -> Forall (fun x => lacks pat x = true) l.
Proof.
  induction l as [|x l IH]; simpl; intros H; constructor;
    apply andb_true_iff in H as [H1 H2]; auto.
Qed.

(** ** The twin of the source variable *)

Lemma lacks_map_replace pat (args : list Expr) old new :
  Forall (fun a => lacks pat (replace a old new) = true) args ->
  forallb (lacks pat) (map (fun a => replace a old new) args) = true.
Proof.
  induction 1 as [|a args Ha _ IH]; cbn [map forallb]; [reflexivity|].
  now rewrite Ha, IH.
Qed.

(** After [replace], nothing of the replaced symbol is left, when the new
    expression does not contain it. *)
Lemma lacks_replace name a new x :
  lacks (Symbol name a) new = true ->
  lacks (Symbol name a) (replace x (Symbol name a) new) = true.
Proof.
  intros Hnew. set (old := Symbol name a) in *.
  assert (Hfin : forall x', lacks old x' = true ->
            lacks old (if expr_eqb x' old then new else x') = true)
    by (intros x' Hx'; now destruct (expr_eqb x' old)).
  induction x using Expr_nested_ind; cbn [replace]; try (apply Hfin; reflexivity).
  - (* Symbol *)
    destruct (expr_eqb (Symbol name0 a0) old) eqn:E; [exact Hnew|].
    cbn [lacks]. now rewrite E.
  - (* Pow *)
    apply Hfin. cbn [args_of].
    destruct (list_eqb _ _) eqn:E.
    + apply list_eqb_eq in E. injection E as E1 E2.
      cbn [lacks]. rewrite <- E1 at 1. rewrite <- E2 at 1.
      now rewrite IHx1, IHx2.
    + cbn [rebuild]. now apply lacks_Pow_.
  - (* Mul *)
    apply Hfin. cbn [args_of]. pose proof (lacks_map_replace old args old new H) as Hm.
    destruct (list_eqb _ _) eqn:E.
    + apply list_eqb_eq in E. cbn [lacks]. now rewrite <- E.
    + cbn [rebuild]. now apply lacks_Mul_.
  - (* Add *)
    apply Hfin. cbn [args_of]. pose proof (lacks_map_replace old args old new H) as Hm.
    destruct (list_eqb _ _) eqn:E.
    + apply list_eqb_eq in E. cbn [lacks]. now rewrite <- E.
    + cbn [rebuild]. now apply lacks_Add_.
  - (* Func *)
    apply Hfin. cbn [args_of]. pose proof (lacks_map_replace old args old new H) as Hm.
    destruct (list_eqb _ _) eqn:E.
    + apply list_eqb_eq in E. cbn [lacks]. now rewrite <- E.
    + cbn [rebuild]. now apply lacks_apply_Func.
  - (* AppliedUndef *)
    apply Hfin. cbn [args_of]. pose proof (lacks_map_replace old args old new H) as Hm.
    destruct (list_eqb _ _) eqn:E.
    + apply list_eqb_eq in E. cbn [lacks]. now rewrite <- E.
    + cbn [rebuild lacks]. exact Hm.
  - (* Integral *)
    apply Hfin. cbn [args_of].
    destruct (list_eqb _ _) eqn:E.
    + apply list_eqb_eq in E. injection E as E1 E2 E3 E4.
      cbn [lacks]. rewrite <- E1 at 1. rewrite <- E2 at 1. rewrite <- E3 at 1.
      rewrite <- E4 at 1. now rewrite IHx1, IHx2, IHx3, IHx4.
    + cbn [rebuild lacks]. now rewrite IHx1, IHx2, IHx3, IHx4.
  - (* FourierTransform *)
    apply Hfin. cbn [args_of].
    destruct (list_eqb _ _) eqn:E.
    + apply list_eqb_eq in E. injection E as E1 E2 E3.
      cbn [lacks]. rewrite <- E1 at 1. rewrite <- E2 at 1. rewrite <- E3 at 1.
      now rewrite IHx1, IHx2, IHx3.
    + cbn [rebuild lacks]. now rewrite IHx1, IHx2, IHx3.
Qed.

(** The orchestrator's [replace] is idempotent. *)
Lemma replace_twin_idempotent (x : Expr) (t : symbol) :
  let var := Symbol (str t) Complex in
  replace (replace x var (sym t)) var (sym t) = replace x var (sym t).
Proof.
  intros var. destruct (expr_eqb (sym t) var) eqn:E.
  - apply expr_eqb_eq in E. rewrite E. now rewrite !replace_same.
  - apply replace_absent. apply lacks_spec. apply lacks_replace.
    destruct t as [n a]. unfold sym, var, str in *.
    cbn [symbol_name symbol_assumption lacks] in *. now rewrite E.
Qed.

(** X12. A symbol with default assumptions that prints like the source
    variable counts as the source variable: the transform of an expression
    is the transform of the expression with that symbol replaced, in both
    directions and on all reachable caches. *)
Theorem twin_of_the_variable_is_the_variable
        sy cache cache' expr t f (inverse : bool) :
  let t' := if inverse then f else t in
  let var := Symbol (str t') Complex in
  reachable sy cache ->
  reachable sy cache' ->
  fst (fourier_transform sy cache (replace expr var (sym t')) t f inverse)
  = fst (fourier_transform sy cache' expr t f inverse).
Proof.
  intros t' var Hc Hc'.
  rewrite (fourier_transform_reachable sy cache _ _ _ _ Hc).
  rewrite (fourier_transform_reachable sy cache' _ _ _ _ Hc').
  unfold fourier_transform_miss.
  replace (if inverse then (f, t) else (t, f))
    with (t', if inverse then t else f)
    by (subst t'; now destruct inverse).
  fold var. unfold var. now rewrite replace_twin_idempotent.
Qed.

Lemma twin_of_the_variable_is_the_variable_witness :
  fst (fourier_transform bare_sympy Example.cache_after_a
                         (AppliedUndef "v" [sym Example.t]) Example.t Example.f false)
  = fst (fourier_transform bare_sympy []
                           (AppliedUndef "v" [Symbol "t" Complex])
                           Example.t Example.f false).
Proof.
  exact (twin_of_the_variable_is_the_variable
           bare_sympy Example.cache_after_a [] (AppliedUndef "v" [Symbol "t" Complex])
           Example.t Example.f false
           (reachable_call _ _ _ _ _ _ (reachable_empty _)) (reachable_empty _)).
Defined.

(** ** [factor_const] *)

Lemma lacks_factor_loop pat t factors :
  forall rest const,
    lacks pat const = true ->
    Forall (fun x => has x (sym t) = false -> lacks pat x = true) factors ->
    lacks pat
      (snd (fold_left
              (fun '(rest, const) factor =>
                 if negb (has factor (sym t)) then (rest, mul const factor)
                 else (mul rest factor, const))
              factors (rest, const))) = true.
Proof.
  induction factors as [|x factors IH]; intros rest const Hc Hf; cbn [fold_left].
  - exact Hc.
  - inversion Hf as [|? ? Hx Hf']; subst.
    destruct (has x (sym t)) eqn:E; cbn [negb]; apply IH; auto.
    apply lacks_mul; auto.
Qed.

Lemma rest_factor_loop t factors :
  forall const,
    Forall (fun x => has x (sym t) = false) factors ->
    fst (fold_left
           (fun '(rest, const) factor =>
              if negb (has factor (sym t)) then (rest, mul const factor)
              else (mul rest factor, const))
           factors (One, const)) = One.
Proof.
  induction factors as [|x factors IH]; intros const Hf; cbn [fold_left].
  - reflexivity.
  - inversion Hf as [|? ? Hx Hf']; subst. rewrite Hx. cbn [negb]. now apply IH.
Qed.

Lemma as_ordered_factors_lacks pat x :
  lacks pat x = true -> forallb (lacks pat) (as_ordered_factors x) = true.
Proof.
  intros Hx.
  assert (Hgen : forallb (lacks pat) [x] = true)
    by (cbn [forallb]; now rewrite Hx).
  destruct x; try exact Hgen. cbn [as_ordered_factors]. now apply lacks_sort_by.
Qed.

(** X13. The constant that [factor_const] takes out never contains [t],
    and nothing is left as the rest of an expression that does not contain
    [t]. *)
Theorem factor_const_separates expr t :
  has (fst (factor_const expr t)) (sym t) = false
  /\ (has expr (sym t) = false -> snd (factor_const expr t) = One).
Proof.
  unfold factor_const.
  destruct (fold_left _ (as_ordered_factors expr) (One, One)) as [rest const] eqn:E.
  cbn [fst snd]. split.
  - destruct t as [n a]. unfold sym in *. cbn [symbol_name symbol_assumption] in *.
    apply lacks_spec.
    pose proof (lacks_factor_loop (Symbol n a) (mkSymbol n a)
                  (as_ordered_factors expr) One One eq_refl) as H.
    unfold sym in H. cbn [symbol_name symbol_assumption] in H.
    rewrite E in H. apply H.
    apply Forall_forall. intros x _ Hx. now apply lacks_spec.
  - intros Ht.
    pose proof (rest_factor_loop t (as_ordered_factors expr) One) as H.
    rewrite E in H. apply H.
    destruct t as [n a]. unfold sym in *. cbn [symbol_name symbol_assumption] in *.
    apply lacks_spec, as_ordered_factors_lacks, lacks_Forall in Ht.
    eapply Forall_impl; [|exact Ht]. intros x Hx. now apply lacks_spec.
Qed.

(** ** The sine

    The steps of the cosine again; the weights are [-I/2] and [I/2]. *)
Lemma rewrite_exp_Sin x :
  rewrite_exp (Func Sin [x])
  = div (sub (exp_ (mul (rewrite_exp x) ImaginaryUnit))
             (exp_ (mul (neg (rewrite_exp x)) ImaginaryUnit)))
        (mul (Number (Integer 2)) ImaginaryUnit).
Proof. reflexivity. Qed.

Lemma as_ordered_terms_pair_kept T1 T2 g d1 d2 :
  map fst (flat_map term_powers [T1; T2]) = [g; g] ->
  term_powers T1 = [(g, d1)] ->
  term_powers T2 = [(g, d2)] ->
  d2 < d1 ->
  as_ordered_terms (Add [T1; T2]) = [T1; T2].
Proof.
  intros Hg H1 H2 Hd. unfold as_ordered_terms, gens_of. rewrite Hg.
  cbn [fold_left insert_gen]. rewrite expr_eqb_refl.
  unfold sort_by. cbn [fold_left insert_by].
  unfold term_compare, monomial. cbn [map]. rewrite H1, H2.
  cbn [degree_in]. rewrite expr_eqb_refl. cbn [monomial_compare].
  rewrite (proj2 (Z.compare_gt_iff d1 d2) Hd). reflexivity.
Qed.

Lemma scaled_imaginary_exponential_rule sy c A t f (inverse : bool) :
  has_AppliedUndef A = false ->
  has A (sym t) = true ->
  has (div A (sym t)) (sym t) = false ->
  has (div A (sym t)) ImaginaryUnit = true ->
  fourier_term sy (Mul [Number c; ImaginaryUnit; Func Exp [A]]) t f inverse
  = Ok (mul (mul (Number c) ImaginaryUnit)
            (Func DiracDelta
               [sub (if inverse then neg (sym f) else sym f)
                    (div (div A (sym t)) (mul (mul ImaginaryUnit two) Pi))])).
Proof.
  intros Hu Ht Hfoo HI. unfold fourier_term.
  cbn [fourier_term_depth has_AppliedUndef existsb]. rewrite Hu. cbn [orb].
  unfold fourier_term_rules.
  assert (Hexp : has (Func Exp [A]) (sym t) = true).
  { cbn [has existsb]. rewrite Ht. now rewrite orb_true_r. }
  assert (Hhas : has (Mul [Number c; ImaginaryUnit; Func Exp [A]]) (sym t) = true).
  { cbn [has existsb] in *. rewrite Hexp. now rewrite !orb_true_r. }
  rewrite Hhas. cbn [negb].
  assert (Hfac : as_ordered_factors (Mul [Number c; ImaginaryUnit; Func Exp [A]])
                 = [Number c; ImaginaryUnit; Func Exp [A]]) by reflexivity.
  rewrite Hfac.
  assert (Hc : has (Number c) (sym t) = false) by reflexivity.
  assert (Hi : has ImaginaryUnit (sym t) = false) by reflexivity.
  assert (Hsplit : split_factors [Number c; ImaginaryUnit; Func Exp [A]] t
                   = (mul (Number c) ImaginaryUnit, One, Func Exp [A])).
  { unfold split_factors. cbn [fold_left]. rewrite Hc. cbn [negb].
    rewrite Hi. cbn [negb]. rewrite Hexp. cbn [negb]. now rewrite !mul_One_l. }
  rewrite Hsplit.
  cbn [is_One One negb andb args_of index nth_error bind].
  rewrite Hfoo, HI. reflexivity.
Qed.

Lemma sub_negated_symbol x n a :
  sub x (Mul [Number (Integer (-1)); Symbol n a]) = add x (Symbol n a).
Proof.
  unfold sub, add.
  assert (E : neg (Mul [Number (Integer (-1)); Symbol n a]) = Symbol n a)
    by (vm_compute; reflexivity).
  now rewrite E.
Qed.

Ltac eval_vm E :=
  let v := eval vm_compute in E in
  let Hv := fresh "Hv" in
  assert (Hv : E = v) by (vm_compute; reflexivity);
  rewrite Hv; clear Hv.

Ltac sine_terms H :=
  unfold sine_of; change (sym Example.t) with (Symbol "t" Real);
  rewrite argument_form, H.

Ltac rewrite_sine :=
  rewrite rewrite_exp_Sin, rewrite_exp_Mul;
  cbn [map rewrite_exp];
  match goal with |- context [Mul_ ?args] => eval_product (Mul_ args) end;
  eval_products;
  match goal with |- context [sub ?x ?y] =>
    is_value x; is_value y; eval_vm (sub x y) end;
  match goal with |- context [div ?x ?y] =>
    is_value x; is_value y; eval_vm (div x y) end.

Ltac expand_sine :=
  rewrite expand_Mul; cbn [map fold_left]; rewrite expand_Add; cbn [map];
  rewrite !expand_Mul; cbn [map fold_left];
  repeat match goal with |- context [expand (Func Exp [Mul ?args])] =>
    let He := fresh "He" in
    assert (He : expand (Mul args) = Mul args)
      by (rewrite expand_Mul; cbn [map expand fold_left]; eval_products; reflexivity);
    rewrite (expand_exponential _ He); clear He
  end;
  cbn [expand];
  match goal with |- context [as_ordered_terms ?x] => eval_vm x end.

Ltac sine_transform :=
  erewrite fourier_transform_miss_terms;
  [ | rewrite replace_absent by (vm_compute; reflexivity);
      cbv zeta;
      match goal with |- context [has_Func Cos ?x || has_Func Sin ?x] =>
        change (has_Func Cos x || has_Func Sin x) with true end;
      cbv iota;
      rewrite_sine; expand_sine;
      eapply as_ordered_terms_pair_kept; [vm_compute; reflexivity ..|reflexivity] ];
  cbn [sum_terms];
  rewrite !scaled_imaginary_exponential_rule by (vm_compute; reflexivity);
  cbn [bind]; rewrite add_Zero_l;
  repeat match goal with |- context [div (div ?x ?y) ?z] =>
    eval_vm (div (div x y) z) end;
  rewrite sub_negated_symbol; reflexivity.

(** X17. With [a] a positive symbol of any name and [t], [f] real symbols,
    [fourier_transform(sin(2*pi*a*t), t, f)] is
    [-I*DiracDelta(f - a)/2 + I*DiracDelta(f + a)/2]. *)
Theorem sine_goes_to_impulse_pair sy cache n :
  reachable sy cache ->
  fst (fourier_transform sy cache (sine_of (Symbol n Positive))
                         Example.t Example.f false)
  = Ok (add (mul (mul (Number (Rational (-1) 2)) ImaginaryUnit)
                 (Func DiracDelta [sub (sym Example.f) (Symbol n Positive)]))
            (mul (mul Half ImaginaryUnit)
                 (Func DiracDelta [add (sym Example.f) (Symbol n Positive)]))).
Proof.
  intros Hc. rewrite (fourier_transform_reachable sy cache _ _ _ _ Hc).
  pose proof (ltb_symbols n Positive "t" Real eq_refl) as H'.
  destruct (ltb (Symbol "t" Real) (Symbol n Positive)) eqn:H; cbn [negb] in H'.
  - sine_terms H; sine_transform.
  - sine_terms H; sine_transform.
Qed.

Lemma sine_goes_to_impulse_pair_witness :
  fst (fourier_transform bare_sympy Example.cache_after_a (sine_of Example.a)
                         Example.t Example.f false)
  = Ok (add (mul (mul (Number (Rational (-1) 2)) ImaginaryUnit)
                 (Func DiracDelta [sub (sym Example.f) Example.a]))
            (mul (mul Half ImaginaryUnit)
                 (Func DiracDelta [add (sym Example.f) Example.a]))).
Proof.
  exact (sine_goes_to_impulse_pair
           bare_sympy Example.cache_after_a "a"
           (reachable_call _ _ _ _ _ _ (reachable_empty _))).
Defined.

(** ** Constant factors and the solver *)

Lemma factor_const_pair k v t args :
  args = [k; v] \/ args = [v; k] ->
  has k (sym t) = false ->
  has v (sym t) = true ->
  factor_const (Mul args) t = (k, v).
Proof.
  intros Ha Hk Hv. unfold factor_const.
  destruct (as_ordered_factors_of_pair k v args Ha) as [-> | ->];
    cbn [fold_left];
    repeat match goal with
    | H : has ?a ?b = _ |- context [has ?a ?b] => rewrite H; cbn [negb]
    end;
    now rewrite !mul_One_l.
Qed.

(** X20. A factor without [t] is carried through: [k*v(t)] goes to
    [V(f)*k], whichever way the two factors are ordered, whatever else [k]
    contains.  The name begins with a character of ASCII, and [sympify]
    reads the name of the target variable as a symbol and the new name
    applied to it as an undefined function, which it does not for the
    names that SymPy binds: [k*s(t)] goes to [f*k]. *)
Theorem constant_factor_is_carried_through
        sy k c rest more t f (inverse : bool) args :
  let v := AppliedUndef (String c rest) (sym t :: more) in
  let name' := String (if inverse then lower c else upper c) rest in
  is_ascii c = true ->
  args = [k; v] \/ args = [v; k] ->
  has k (sym t) = false ->
  reads_symbol sy (str f) ->
  reads_call sy name' (str f) ->
  fourier_term sy (Mul args) t f inverse
  = Ok (mul (AppliedUndef name' [sym f]) k).
Proof.
  intros v name' _ Ha Hk Hf Hcall.
  assert (Hv : has v (sym t) = true) by (apply has_argument, has_self).
  assert (Hu : has_AppliedUndef (Mul args) = true).
  { destruct Ha as [-> | ->]; cbn [has_AppliedUndef existsb];
      now rewrite ?orb_true_r. }
  unfold fourier_term. cbn [fourier_term_depth]. rewrite Hu.
  unfold fourier_function. rewrite Hu. cbn [negb].
  rewrite (factor_const_pair k v t args Ha Hk Hv), Hf. cbn [bind].
  change (is_AppliedUndef v) with true. cbv iota. subst v.
  rewrite (fourier_func_formula sy c rest (sym t) more t f inverse One Zero
             (scale_shift_symbol sy t) Hf Hcall).
  cbn [is_Zero Zero bind]. now rewrite div_One_r.
Qed.

Lemma constant_factor_is_carried_through_witness :
  fourier_term bare_sympy (mul Example.a (AppliedUndef "v" [sym Example.t]))
               Example.t Example.f false
  = Ok (mul (AppliedUndef "V" [sym Example.f]) Example.a).
Proof.
  exact (constant_factor_is_carried_through
           bare_sympy Example.a "v"%char "" [] Example.t Example.f false
           [Example.a; AppliedUndef "v" [sym Example.t]]
           eq_refl (or_introl eq_refl) eq_refl eq_refl eq_refl).
Defined.

(** X21. An exponential of [t] whose rate [A/t] still contains [t], or
    contains no [I], is handed to the solver, with the negated target
    variable in the inverse direction. *)
Theorem other_exponential_goes_to_the_solver sy A t f (inverse : bool) :
  has_AppliedUndef A = false ->
  has A (sym t) = true ->
  has (div A (sym t)) (sym t) = true \/ has (div A (sym t)) ImaginaryUnit = false ->
  fourier_term sy (Func Exp [A]) t f inverse
  = fourier_sympy sy (Func Exp [A]) t (if inverse then neg (sym f) else sym f).
Proof.
  intros Hu Ht Hfoo. unfold fourier_term.
  cbn [fourier_term_depth has_AppliedUndef existsb]. rewrite Hu. cbn [orb].
  unfold fourier_term_rules.
  assert (Hhas : has (Func Exp [A]) (sym t) = true).
  { cbn [has existsb]. rewrite Ht. now rewrite orb_true_r. }
  rewrite Hhas. cbn [negb as_ordered_factors split_factors fold_left].
  rewrite Hhas. cbn [negb]. rewrite mul_One_l.
  cbn [is_One One negb andb args_of index nth_error bind].
  destruct (has (div A (sym t)) (sym t)) eqn:E1; [reflexivity|].
  destruct Hfoo as [Hfoo | Hfoo]; [discriminate Hfoo|]. now rewrite Hfoo.
Qed.

Lemma other_exponential_goes_to_the_solver_witness :
  let A := Mul [Number (Integer (-1)); Example.a; sym Example.t] in
  has (div A (sym Example.t)) ImaginaryUnit = false
  /\ fourier_term bare_sympy (Func Exp [A]) Example.t Example.f false
     = Raise (ValueError (Could_not_compute (Func Exp [A]))).
Proof.
  intros A. split; [reflexivity|].
  exact (other_exponential_goes_to_the_solver
           bare_sympy A Example.t Example.f false eq_refl eq_refl
           (or_intror eq_refl)).
Defined.
